(** * bank: an in-process ledger of named accounts

    A shallow embedding of [bank.go] (package [bank]) and the properties of
    its account operations, history reader and snapshot persistence.

    Go's [int] is modelled at its 64-bit width (amd64, arm64): a [Z] kept in
    the signed 64-bit range by [wrap], which every arithmetic operator of the
    source applies.  Accounts live in a heap addressed by pointers, because
    the package hands out [*Account] values and mutates them in place; two
    pointers may be equal. *)

From Stdlib Require Import ZArith Lia.
From stdpp Require Import base list gmap strings countable fin_maps pretty.

Local Open Scope Z_scope.

(** ** Go's [int] *)

Definition min_int : Z := - 2 ^ 63.
Definition max_int : Z := 2 ^ 63 - 1.

(** Two's-complement reduction of a mathematical integer to [int]. *)
Definition wrap (z : Z) : Z := (z + 2 ^ 63) mod 2 ^ 64 - 2 ^ 63.

Definition is_int (z : Z) : Prop := min_int <= z <= max_int.

(** [x + y], [x - y] and [-x] on [int]. *)
Definition int_add (x y : Z) : Z := wrap (x + y).
Definition int_sub (x y : Z) : Z := wrap (x - y).
Definition int_neg (x : Z) : Z := wrap (- x).

(** ** Data model *)

(** [type history struct { Amt, Bal int }]; the second field is named
    [HBal] here, [Bal] being the account's field. *)
Record history : Type := mkHistory { Amt : Z; HBal : Z }.

(** [type Account struct { Name string; Bal int; Hist []history }] *)
Record Account : Type := mkAccount {
  Name : string;
  Bal : Z;
  Hist : list history
}.

(** A [*Account]: an address in the heap.  An address outside the heap
    stands for [nil]; dereferencing it panics. *)
Abbreviation ptr := nat (only parsing).

(** The errors the package builds, one constructor per [errors.Errorf],
    [errors.New] or [errors.Wrap] call of the source, with the values the
    message is formatted from. *)
Inductive error : Type :=
| ErrNoAccount (name : string)            (* GetAccount *)
| ErrDepositAmount (m : Z)                (* Deposit, m < 0 *)
| ErrWithdrawAmount (m : Z)               (* Withdraw, m < 0 *)
| ErrWithdrawFunds (m bal : Z)            (* Withdraw, m > a.Bal *)
| ErrTransferAmount (m : Z)               (* Transfer, m < 0 *)
| ErrTransferFunds (m bal : Z)            (* Transfer, m > a.Bal *)
| ErrSaveCreate
| ErrSaveEncode
| ErrLoadOpen
| ErrLoadDecode.

(** The error kinds of the specification. *)
Inductive error_kind : Type := NotFound | InvalidAmount | InsufficientFunds | IOError.

Definition kind (e : error) : error_kind :=
  match e with
  | ErrNoAccount _ => NotFound
  | ErrDepositAmount _ | ErrWithdrawAmount _ | ErrTransferAmount _ => InvalidAmount
  | ErrWithdrawFunds _ _ | ErrTransferFunds _ _ => InsufficientFunds
  | ErrSaveCreate | ErrSaveEncode | ErrLoadOpen | ErrLoadDecode => IOError
  end.

(** The file [bank.data]: absent, or present with its bytes; [denied] is
    set when the process may not open or create it. *)
Record FS : Type := mkFS {
  content : option (list Byte.byte);
  denied : bool
}.

(** The state of the process: the heap of accounts, the package variable
    [accounts] ([None] is the nil map), and the file system. *)
Record World : Type := mkWorld {
  heap : list Account;
  accounts : option (gmap string ptr);
  disk : FS
}.

Definition set_heap (h : list Account) (w : World) : World :=
  mkWorld h (accounts w) (disk w).
Definition set_accounts (r : option (gmap string ptr)) (w : World) : World :=
  mkWorld (heap w) r (disk w).
Definition set_disk (d : FS) (w : World) : World :=
  mkWorld (heap w) (accounts w) d.

(** ** Computations: state passing, [None] is a panic *)

Definition Go (A : Type) : Type := World -> option (A * World).

Definition ret {A : Type} (x : A) : Go A := fun w => Some (x, w).

Definition bind {A B : Type} (m : Go A) (k : A -> Go B) : Go B :=
  fun w => match m w with
           | Some (x, w') => k x w'
           | None => None
           end.

Definition panic {A : Type} : Go A := fun _ => None.

Notation "'let*' x ':=' m 'in' k" := (bind m (fun x => k))
  (at level 10, x name, m at level 100, k at level 200).
Notation "'exec' m 'in' k" := (bind m (fun _ => k))
  (at level 10, m at level 100, k at level 200).

(** [*p] *)
Definition deref (p : ptr) : Go Account :=
  fun w => match heap w !! p with
           | Some a => Some (a, w)
           | None => None
           end.

(** [*p = a] *)
Definition assign (p : ptr) (a : Account) : Go unit :=
  fun w => match heap w !! p with
           | Some _ => Some (tt, set_heap (<[p := a]> (heap w)) w)
           | None => None
           end.

(** Reads and writes of one field through a pointer. *)
Definition get_Bal (p : ptr) : Go Z := let* a := deref p in ret (Bal a).
Definition get_Hist (p : ptr) : Go (list history) := let* a := deref p in ret (Hist a).
Definition set_Bal (p : ptr) (v : Z) : Go unit :=
  let* a := deref p in assign p (mkAccount (Name a) v (Hist a)).
Definition set_Hist (p : ptr) (h : list history) : Go unit :=
  let* a := deref p in assign p (mkAccount (Name a) (Bal a) h).

(** [&Account{...}]: a fresh cell at the end of the heap. *)
Definition new (a : Account) : Go ptr :=
  fun w => Some (length (heap w), set_heap (heap w ++ [a]) w).

(** ** Registry *)

(** [NewAccount] *)
Definition NewAccount (s : string) : Go ptr :=
  let* a := new (mkAccount s 0 []) in
  fun w =>
    let m := match accounts w with
             | None => ∅                       (* make(map[string]*Account) *)
             | Some m => m
             end in
    Some (a, set_accounts (Some (<[s := a]> m)) w).

(** [GetAccount]; reading a nil map finds nothing. *)
Definition GetAccount (name : string) : Go (option ptr * option error) :=
  fun w =>
    match (match accounts w with None => None | Some m => m !! name end) with
    | None => Some ((None, Some (ErrNoAccount name)), w)
    | Some accnt => Some ((Some accnt, None), w)
    end.

(** [Name] (here [GetName], [Name] being the field) and [Balance] *)
Definition GetName (a : ptr) : Go string := let* x := deref a in ret (Name x).
Definition Balance (a : ptr) : Go Z := get_Bal a.

(** ** Listing *)

Definition newline : string := String (Ascii.ascii_of_nat 10) "".

(** The text [fmt.Sprintf("Account: %s, balance: %d\n", ...)] makes of a
    name and a balance. *)
Definition line_of (name : string) (bal : Z) : string :=
  "Account: " +:+ name +:+ ", balance: " +:+ pretty bal +:+ newline.

(** The loop of [ListAccounts] over the values of the map, in the order the
    iteration yields them; [v.Name] on a nil value panics. *)
Fixpoint list_values (vs : list ptr) (list : string) : Go string :=
  match vs with
  | [] => ret list
  | v :: vs' =>
      let* x := deref v in
      let* bal := get_Bal v in
      list_values vs' (list +:+ line_of (Name x) bal)
  end.

(** Go leaves the order in which [range] visits a map open: any
    arrangement of the entries can be the one. *)
Definition iteration_order (w : World) (order : list (string * ptr)) : Prop :=
  order ≡ₚ map_to_list (default ∅ (accounts w)).

(** [ListAccounts], given the order of the iteration. *)
Definition ListAccounts (order : list (string * ptr)) : Go string :=
  list_values (snd <$> order) ("Accounts:" +:+ newline).

(** ** Transactions *)

(** [Deposit] *)
Definition Deposit (a : ptr) (m : Z) : Go (Z * option error) :=
  if m <? 0 then
    let* bal := get_Bal a in
    ret (bal, Some (ErrDepositAmount m))
  else
    let* bal := get_Bal a in
    exec set_Bal a (int_add bal m) in                        (* a.Bal += m *)
    let* h := get_Hist a in
    let* bal := get_Bal a in
    exec set_Hist a (h ++ [mkHistory m bal]) in
    let* bal := get_Bal a in
    ret (bal, None).

(** [Withdraw] *)
Definition Withdraw (a : ptr) (m : Z) : Go (Z * option error) :=
  if m <? 0 then
    let* bal := get_Bal a in
    ret (bal, Some (ErrWithdrawAmount m))
  else
    let* bal := get_Bal a in
    if m >? bal then
      let* bal1 := get_Bal a in
      let* bal2 := get_Bal a in
      ret (bal1, Some (ErrWithdrawFunds m bal2))
    else
      let* bal := get_Bal a in
      exec set_Bal a (int_sub bal m) in                      (* a.Bal -= m *)
      let* h := get_Hist a in
      let* bal := get_Bal a in
      exec set_Hist a (h ++ [mkHistory (int_neg m) bal]) in
      let* bal := get_Bal a in
      ret (bal, None).

(** [Transfer] *)
Definition Transfer (a b : ptr) (m : Z) : Go (Z * Z * option error) :=
  if m <? 0 then
    let* abal := get_Bal a in
    let* bbal := get_Bal b in
    ret (abal, bbal, Some (ErrTransferAmount m))
  else
    let* abal := get_Bal a in
    if m >? abal then
      let* abal1 := get_Bal a in
      let* abal2 := get_Bal a in
      ret (0, abal1, Some (ErrTransferFunds m abal2))
    else
      let* abal := get_Bal a in
      exec set_Bal a (int_sub abal m) in                     (* a.Bal -= m *)
      let* bbal := get_Bal b in
      exec set_Bal b (int_add bbal m) in                     (* b.Bal += m *)
      let* ah := get_Hist a in
      let* abal := get_Bal a in
      exec set_Hist a (ah ++ [mkHistory (int_neg m) abal]) in
      let* bh := get_Hist b in
      let* bbal := get_Bal b in
      exec set_Hist b (bh ++ [mkHistory m bbal]) in
      let* abal := get_Bal a in
      let* bbal := get_Bal b in
      ret (abal, bbal, None).

(** ** History reader *)

(** The variables the closure returned by [History] captures: the account
    pointer, the cursor [i] and the flag [more].  [i] only grows while it is
    below [len(a.Hist)], so it never leaves [int]. *)
Record reader : Type := mkReader { r_acct : ptr; r_i : nat; r_more : bool }.

(** [History]: building the closure reads nothing. *)
Definition History (a : ptr) : reader := mkReader a 0%nat true.

(** One call of the closure: the triple it returns and the captured
    variables afterwards.  [a.Hist[i]] out of range panics. *)
Definition next (r : reader) : Go (Z * Z * bool * reader) :=
  let* h := get_Hist (r_acct r) in
  if Z.of_nat (length h) =? 0 then
    ret (0, 0, false, r)
  else
    let* h := get_Hist (r_acct r) in
    let more := if Z.of_nat (r_i r) >=? Z.of_nat (length h) - 1
                then false else r_more r in
    let* h := get_Hist (r_acct r) in
    match h !! r_i r with
    | Some x => ret (Amt x, HBal x, more, mkReader (r_acct r) (S (r_i r)) more)
    | None => panic
    end.

(** [n] calls in a row of one closure, collecting what it returns. *)
Fixpoint calls (n : nat) (r : reader) : Go (list (Z * Z * bool)) :=
  match n with
  | O => ret []
  | S n' =>
      let* x := next r in
      let* xs := calls n' (snd x) in
      ret (fst x :: xs)
  end.

(** ** Runs of the public operations *)

Inductive op : Type :=
| OpNewAccount (s : string)
| OpDeposit (a : ptr) (m : Z)
| OpWithdraw (a : ptr) (m : Z)
| OpTransfer (a b : ptr) (m : Z).

Definition run_op (o : op) : Go unit :=
  match o with
  | OpNewAccount s => exec NewAccount s in ret tt
  | OpDeposit a m => exec Deposit a m in ret tt
  | OpWithdraw a m => exec Withdraw a m in ret tt
  | OpTransfer a b m => exec Transfer a b m in ret tt
  end.

Fixpoint run_ops (os : list op) : Go unit :=
  match os with
  | [] => ret tt
  | o :: os' => exec run_op o in run_ops os'
  end.

(** The process at start: no account allocated, [accounts] nil. *)
Definition init_world (d : FS) : World := mkWorld [] None d.

(** ** The ledger invariant *)

(** The sum of the amounts of a history, as a mathematical integer. *)
Definition sum_amounts (h : list history) : Z := foldr (fun r s => Amt r + s) 0 h.

(** Replaying the amounts from [start] meets every resulting balance. *)
Fixpoint replays (start : Z) (h : list history) : Prop :=
  match h with
  | [] => True
  | r :: h' => HBal r = start + Amt r /\ replays (HBal r) h'
  end.

(** The same replay in Go's [int] arithmetic. *)
Fixpoint replays_int (start : Z) (h : list history) : Prop :=
  match h with
  | [] => True
  | r :: h' => HBal r = int_add start (Amt r) /\ replays_int (HBal r) h'
  end.

Definition last_is_balance (a : Account) : Prop :=
  match last (Hist a) with
  | Some r => HBal r = Bal a
  | None => True
  end.

(** The invariant over the integers. *)
Definition ledger_inv (a : Account) : Prop :=
  Bal a = sum_amounts (Hist a) /\ replays 0 (Hist a) /\ last_is_balance a.

(** The invariant in [int] arithmetic. *)
Definition ledger_inv_int (a : Account) : Prop :=
  Bal a = wrap (sum_amounts (Hist a)) /\ replays_int 0 (Hist a) /\ last_is_balance a.

(** Where a replay from [start] ends. *)
Definition end_balance (start : Z) (h : list history) : Z :=
  match last h with
  | Some r => HBal r
  | None => start
  end.

(** A transfer names two different accounts. *)
Definition distinct_accounts (o : op) : Prop :=
  match o with
  | OpTransfer a b _ => a <> b
  | _ => True
  end.

(** ** Persistence *)

(** What the registry holds, pointers followed: the value [gob] transmits
    for [accounts] (pointers are flattened, a nil map is sent as an empty
    map). *)
Definition registry_view (w : World) : gmap string Account :=
  omap (fun p : ptr => heap w !! p) (default ∅ (accounts w)).

(** Every registered pointer is allocated.  The package never stores a nil
    pointer in [accounts]. *)
Definition registry_ok (w : World) : Prop :=
  map_Forall (fun (_ : string) (p : ptr) => is_Some (heap w !! p))
             (default ∅ (accounts w)).

(** Writing [bs] at offset 0 of a file opened without truncation. *)
Definition overwrite (bs old : list Byte.byte) : list Byte.byte :=
  bs ++ drop (length bs) old.

(** [accounts[k] = p] on a map that was made. *)
Definition set_entry (k : string) (p : ptr) : Go unit :=
  fun w => Some (tt, set_accounts (Some (<[k := p]> (default ∅ (accounts w)))) w).

(** The decoder filling the map behind [&accounts]: a nil map is made
    first, then each transmitted entry is decoded into a fresh [Account]
    and stored under its key, over whatever the map held. *)
Fixpoint store_entries (kvs : list (string * Account)) : Go unit :=
  match kvs with
  | [] => ret tt
  | kv :: kvs' =>
      let* p := new (snd kv) in
      exec set_entry (fst kv) p in
      store_entries kvs'
  end.

Section Persistence.

(** The [encoding/gob] codec for [map[string]*Account], a library
    outside the package: what [Encode] writes for a map, and what
    [Decode] reads from the bytes of a file. *)
Variable gob_encode : gmap string Account -> list Byte.byte.
Variable gob_decode : list Byte.byte -> option (gmap string Account).

(** [Save].  [os.OpenFile] with [O_WRONLY] alone needs the file to exist
    and keeps its bytes; [os.Create] makes an empty file.  Writing and
    closing an opened file succeed in this model.  With a nil pointer in
    the map [Encode] fails; what it has written by then is not
    modelled. *)
Definition Save : Go (option error) :=
  fun w =>
    let d := disk w in
    let opened :=
      match content d with
      | Some old => if denied d then None else Some (old, w)
      | None => None
      end in
    let created :=
      match opened with
      | Some f => Some f
      | None => if denied d then None
                else Some ([], set_disk (mkFS (Some []) (denied d)) w)
      end in
    match created with
    | None => Some (Some ErrSaveCreate, w)
    | Some (old, w1) =>
        if decide (registry_ok w1) then
          let bs := gob_encode (registry_view w1) in
          Some (None, set_disk (mkFS (Some (overwrite bs old)) (denied d)) w1)
        else Some (Some ErrSaveEncode, w1)
    end.

(** [Load] *)
Definition Load : Go (option error) :=
  fun w =>
    let d := disk w in
    match content d with
    | None => Some (None, w)                       (* os.IsNotExist *)
    | Some bs =>
        if denied d then Some (Some ErrLoadOpen, w)
        else
          match gob_decode bs with
          | None => Some (Some ErrLoadDecode, w)
          | Some m =>
              (exec store_entries (map_to_list m) in ret None)
                (set_accounts (Some (default ∅ (accounts w))) w)
          end
    end.

End Persistence.

(** [accounts = nil] *)
Definition Clear (w : World) : World := set_accounts None w.

(** A codec decodes what it encoded, whatever bytes follow in the file. *)
Definition self_delimiting
    (enc : gmap string Account -> list Byte.byte)
    (dec : list Byte.byte -> option (gmap string Account)) : Prop :=
  forall m rest, dec (enc m ++ rest) = Some m.

(** ** What runs keep

    Facts about states that the proofs below carry through runs. *)

(** Every registered name leads to an allocated account of that name. *)
Definition registry_named (w : World) : Prop :=
  map_Forall (fun (k : string) (p : ptr) =>
                exists a, heap w !! p = Some a /\ Name a = k)
             (default ∅ (accounts w)).

(** Heap [h'] still holds every account of [h], under the same pointer and
    name, with a history that extends the earlier one. *)
Definition grows (h h' : list Account) : Prop :=
  forall p x, h !! p = Some x ->
    exists x', h' !! p = Some x' /\ Name x' = Name x /\ Hist x `prefix_of` Hist x'.

(** The names a run passes to [NewAccount], in order. *)
Definition created (os : list op) : list string :=
  omap (fun o => match o with OpNewAccount s => Some s | _ => None end) os.

(** ** A codec to run the persistence layer with

    The bytes [gob] writes are not reproduced here.  This stand-in numbers
    the maps (they are countable) and writes the number in unary: that many
    zero bytes, then a one.  It is self-delimiting, like a [gob] stream. *)

#[global] Instance history_eq_dec : EqDecision history.
Proof. solve_decision. Defined.

#[global] Instance history_countable : Countable history :=
  inj_countable' (fun r => (Amt r, HBal r)) (fun p => mkHistory (fst p) (snd p))
                 (fun r => match r with mkHistory _ _ => eq_refl end).

#[global] Instance Account_eq_dec : EqDecision Account.
Proof. solve_decision. Defined.

#[global] Instance Account_countable : Countable Account :=
  inj_countable' (fun a => (Name a, Bal a, Hist a))
                 (fun p => mkAccount (fst (fst p)) (snd (fst p)) (snd p))
                 (fun a => match a with mkAccount _ _ _ => eq_refl end).

Definition unary_encode (m : gmap string Account) : list Byte.byte :=
  replicate (Pos.to_nat (encode m)) Byte.x00 ++ [Byte.x01].

Fixpoint count_zeros (bs : list Byte.byte) : option nat :=
  match bs with
  | Byte.x00 :: bs' => S <$> count_zeros bs'
  | Byte.x01 :: _ => Some O
  | _ => None
  end.

Definition unary_decode (bs : list Byte.byte) : option (gmap string Account) :=
  match count_zeros bs with
  | Some n => decode (Pos.of_nat n)
  | None => None
  end.

(** ** Example states

    The states the scenarios of the specification and of [bank_test.go]
    pass through. *)

Definition no_file : FS := mkFS None false.

(** Accounts "A" and "B" after [Deposit(A, 100)]. *)
Definition two_accounts : World :=
  mkWorld [mkAccount "A" 100 [mkHistory 100 100]; mkAccount "B" 0 []]
          (Some (<["B" := 1%nat]> (<["A" := 0%nat]> ∅))) no_file.

(** One account holding the largest [int]. *)
Definition full_account : World :=
  mkWorld [mkAccount "A" max_int [mkHistory max_int max_int]]
          (Some (<["A" := 0%nat]> ∅)) no_file.

(** One account that two deposits of the largest [int] left at -2. *)
Definition overdrawn_account : World :=
  mkWorld [mkAccount "A" (-2) [mkHistory max_int max_int; mkHistory max_int (-2)]]
          (Some (<["A" := 0%nat]> ∅)) no_file.

(** Pike's account of [TestHistory]. *)
Definition pike : World :=
  mkWorld [mkAccount "Pike" 100
             [mkHistory 100 100; mkHistory 10 110; mkHistory (-40) 70; mkHistory 23 93]]
          None no_file.

(** * Properties *)

(** ** [int] arithmetic *)

Lemma wrap_id (z : Z) : is_int z -> wrap z = z.
Proof.
  unfold is_int, min_int, max_int, wrap. intros Hz.
  rewrite Z.mod_small by lia. lia.
Qed.

Lemma wrap_is_int (z : Z) : is_int (wrap z).
Proof.
  unfold is_int, min_int, max_int, wrap.
  pose proof (Z.mod_pos_bound (z + 2 ^ 63) (2 ^ 64) ltac:(lia)). lia.
Qed.

Lemma wrap_add_l (x y : Z) : wrap (wrap x + y) = wrap (x + y).
Proof.
  unfold wrap. f_equal.
  replace ((x + 2 ^ 63) mod 2 ^ 64 - 2 ^ 63 + y + 2 ^ 63)
    with ((x + 2 ^ 63) mod 2 ^ 64 + y) by lia.
  rewrite Zplus_mod_idemp_l. f_equal. lia.
Qed.

Lemma wrap_add_r (x y : Z) : wrap (x + wrap y) = wrap (x + y).
Proof. rewrite (Z.add_comm x (wrap y)), wrap_add_l. f_equal. lia. Qed.

(** ** Stepping through a computation *)

Lemma deref_eq (p : ptr) (a : Account) (w : World) :
  heap w !! p = Some a -> deref p w = Some (a, w).
Proof. unfold deref. intros ->. reflexivity. Qed.

Lemma get_Bal_eq (p : ptr) (a : Account) (w : World) :
  heap w !! p = Some a -> get_Bal p w = Some (Bal a, w).
Proof. unfold get_Bal, bind. intros H. rewrite (deref_eq _ _ _ H). reflexivity. Qed.

Lemma get_Hist_eq (p : ptr) (a : Account) (w : World) :
  heap w !! p = Some a -> get_Hist p w = Some (Hist a, w).
Proof. unfold get_Hist, bind. intros H. rewrite (deref_eq _ _ _ H). reflexivity. Qed.

Lemma set_Bal_eq (p : ptr) (a : Account) (v : Z) (w : World) :
  heap w !! p = Some a ->
  set_Bal p v w
  = Some (tt, set_heap (<[p := mkAccount (Name a) v (Hist a)]> (heap w)) w).
Proof.
  unfold set_Bal, bind, assign. intros H.
  rewrite (deref_eq _ _ _ H), H. reflexivity.
Qed.

Lemma set_Hist_eq (p : ptr) (a : Account) (h : list history) (w : World) :
  heap w !! p = Some a ->
  set_Hist p h w
  = Some (tt, set_heap (<[p := mkAccount (Name a) (Bal a) h]> (heap w)) w).
Proof.
  unfold set_Hist, bind, assign. intros H.
  rewrite (deref_eq _ _ _ H), H. reflexivity.
Qed.

Lemma heap_set_eq (p : ptr) (a x : Account) (w : World) :
  heap w !! p = Some a -> heap (set_heap (<[p := x]> (heap w)) w) !! p = Some x.
Proof.
  intros H. simpl. apply list_lookup_insert_eq. eapply lookup_lt_Some, H.
Qed.

Lemma heap_set_ne (p q : ptr) (x : Account) (w : World) :
  p <> q -> heap (set_heap (<[p := x]> (heap w)) w) !! q = heap w !! q.
Proof. intros H. simpl. apply list_lookup_insert_ne, H. Qed.

(** Find, or derive from the writes made so far, what pointer [p] points
    to in world [w]. *)
Ltac heap_fact p w :=
  lazymatch goal with
  | H : heap w !! p = Some _ |- _ => idtac
  | _ =>
      lazymatch w with
      | set_heap (<[p := ?x]> (heap ?w0)) ?w0 =>
          heap_fact p w0;
          lazymatch goal with
          | H : heap w0 !! p = Some ?a |- _ =>
              pose proof (heap_set_eq p a x w0 H)
          end
      | set_heap (<[?q := ?x]> (heap ?w0)) ?w0 =>
          heap_fact p w0;
          lazymatch goal with
          | H : heap w0 !! p = Some ?a |- _ =>
              let H' := fresh "Hheap" in
              assert (H' : heap w !! p = Some a)
                by (rewrite heap_set_ne by congruence; exact H)
          end
      end
  end.

(** Run the next field access of the computation in the goal. *)
Ltac go_step :=
  lazymatch goal with
  | |- context [get_Bal ?p ?w] =>
      heap_fact p w;
      lazymatch goal with H : heap w !! p = Some _ |- _ =>
        rewrite (get_Bal_eq _ _ _ H) end
  | |- context [get_Hist ?p ?w] =>
      heap_fact p w;
      lazymatch goal with H : heap w !! p = Some _ |- _ =>
        rewrite (get_Hist_eq _ _ _ H) end
  | |- context [set_Bal ?p ?v ?w] =>
      heap_fact p w;
      lazymatch goal with H : heap w !! p = Some _ |- _ =>
        rewrite (set_Bal_eq _ _ _ _ H) end
  | |- context [set_Hist ?p ?h ?w] =>
      heap_fact p w;
      lazymatch goal with H : heap w !! p = Some _ |- _ =>
        rewrite (set_Hist_eq _ _ _ _ H) end
  end;
  cbv beta iota; cbn [Bal Hist Name].

Ltac go := unfold bind; repeat go_step; unfold ret.

(** ** The three transactions, path by path *)

Lemma Deposit_invalid (a : ptr) (m : Z) (w : World) (acc : Account) :
  heap w !! a = Some acc -> m < 0 ->
  Deposit a m w = Some (Bal acc, Some (ErrDepositAmount m), w).
Proof.
  intros H Hm. unfold Deposit.
  destruct (Z.ltb_spec m 0); [|lia].
  go. reflexivity.
Qed.

Lemma Deposit_ok (a : ptr) (m : Z) (w : World) (acc : Account) :
  heap w !! a = Some acc -> 0 <= m ->
  Deposit a m w
  = Some (int_add (Bal acc) m, None,
          set_heap (<[a := mkAccount (Name acc) (int_add (Bal acc) m)
                             (Hist acc ++ [mkHistory m (int_add (Bal acc) m)])]>
                      (heap w)) w).
Proof.
  intros H Hm. unfold Deposit.
  destruct (Z.ltb_spec m 0); [lia|].
  go. cbn [heap set_heap accounts disk].
  rewrite list_insert_insert_eq. reflexivity.
Qed.

Lemma Withdraw_invalid (a : ptr) (m : Z) (w : World) (acc : Account) :
  heap w !! a = Some acc -> m < 0 ->
  Withdraw a m w = Some (Bal acc, Some (ErrWithdrawAmount m), w).
Proof.
  intros H Hm. unfold Withdraw.
  destruct (Z.ltb_spec m 0); [|lia].
  go. reflexivity.
Qed.

Lemma Withdraw_funds (a : ptr) (m : Z) (w : World) (acc : Account) :
  heap w !! a = Some acc -> 0 <= m -> m > Bal acc ->
  Withdraw a m w = Some (Bal acc, Some (ErrWithdrawFunds m (Bal acc)), w).
Proof.
  intros H Hm Hb. unfold Withdraw.
  destruct (Z.ltb_spec m 0); [lia|].
  unfold bind at 1. go_step.
  destruct (Z.gtb_spec m (Bal acc)); [|lia].
  go. reflexivity.
Qed.

Lemma Withdraw_ok (a : ptr) (m : Z) (w : World) (acc : Account) :
  heap w !! a = Some acc -> 0 <= m -> m <= Bal acc ->
  Withdraw a m w
  = Some (int_sub (Bal acc) m, None,
          set_heap (<[a := mkAccount (Name acc) (int_sub (Bal acc) m)
                             (Hist acc ++ [mkHistory (int_neg m) (int_sub (Bal acc) m)])]>
                      (heap w)) w).
Proof.
  intros H Hm Hb. unfold Withdraw.
  destruct (Z.ltb_spec m 0); [lia|].
  unfold bind at 1. go_step.
  destruct (Z.gtb_spec m (Bal acc)); [lia|].
  go. cbn [heap set_heap accounts disk].
  rewrite list_insert_insert_eq. reflexivity.
Qed.

Lemma Transfer_invalid (a b : ptr) (m : Z) (w : World) (A B : Account) :
  heap w !! a = Some A -> heap w !! b = Some B -> m < 0 ->
  Transfer a b m w = Some (Bal A, Bal B, Some (ErrTransferAmount m), w).
Proof.
  intros HA HB Hm. unfold Transfer.
  destruct (Z.ltb_spec m 0); [|lia].
  unfold bind. rewrite (get_Bal_eq _ _ _ HA). cbv beta iota.
  rewrite (get_Bal_eq _ _ _ HB). reflexivity.
Qed.

Lemma Transfer_funds (a b : ptr) (m : Z) (w : World) (A : Account) :
  heap w !! a = Some A -> 0 <= m -> m > Bal A ->
  Transfer a b m w = Some (0, Bal A, Some (ErrTransferFunds m (Bal A)), w).
Proof.
  intros HA Hm Hb. unfold Transfer.
  destruct (Z.ltb_spec m 0); [lia|].
  unfold bind at 1. go_step.
  destruct (Z.gtb_spec m (Bal A)); [|lia].
  go. reflexivity.
Qed.

(** The success path between two different accounts. *)
Lemma Transfer_ok (a b : ptr) (m : Z) (w : World) (A B : Account) :
  heap w !! a = Some A -> heap w !! b = Some B -> a <> b ->
  0 <= m -> m <= Bal A ->
  Transfer a b m w
  = Some (int_sub (Bal A) m, int_add (Bal B) m, None,
          set_heap
            (<[b := mkAccount (Name B) (int_add (Bal B) m)
                      (Hist B ++ [mkHistory m (int_add (Bal B) m)])]>
               (<[a := mkAccount (Name A) (int_sub (Bal A) m)
                         (Hist A ++ [mkHistory (int_neg m) (int_sub (Bal A) m)])]>
                  (heap w))) w).
Proof.
  intros HA HB Hne Hm Hb. unfold Transfer.
  destruct (Z.ltb_spec m 0); [lia|].
  unfold bind at 1. go_step.
  destruct (Z.gtb_spec m (Bal A)); [lia|].
  go. cbn [heap set_heap accounts disk].
  rewrite (list_insert_insert_ne _ a b) by exact Hne.
  rewrite !list_insert_insert_eq. reflexivity.
Qed.

(** The success path when both pointers are the same account: both balance
    updates land on it before either record is appended. *)
Lemma Transfer_self (a : ptr) (m : Z) (w : World) (A : Account) :
  heap w !! a = Some A -> 0 <= m -> m <= Bal A ->
  let bal := int_add (int_sub (Bal A) m) m in
  Transfer a a m w
  = Some (bal, bal, None,
          set_heap
            (<[a := mkAccount (Name A) bal
                      (Hist A ++ [mkHistory (int_neg m) bal; mkHistory m bal])]>
               (heap w)) w).
Proof.
  intros HA Hm Hb bal. unfold Transfer.
  destruct (Z.ltb_spec m 0); [lia|].
  unfold bind at 1. go_step.
  destruct (Z.gtb_spec m (Bal A)); [lia|].
  go. cbn [heap set_heap accounts disk].
  rewrite !list_insert_insert_eq, <- app_assoc. reflexivity.
Qed.

(** ** The example states are reached through the public operations *)

Lemma two_accounts_reached :
  run_ops [OpNewAccount "A"; OpNewAccount "B"; OpDeposit 0%nat 100]
          (init_world no_file) = Some (tt, two_accounts).
Proof. vm_compute. reflexivity. Qed.

Lemma full_account_reached :
  run_ops [OpNewAccount "A"; OpDeposit 0%nat max_int] (init_world no_file)
  = Some (tt, full_account).
Proof. vm_compute. reflexivity. Qed.

Lemma overdrawn_account_reached :
  run_ops [OpNewAccount "A"; OpDeposit 0%nat max_int; OpDeposit 0%nat max_int]
          (init_world no_file) = Some (tt, overdrawn_account).
Proof. vm_compute. reflexivity. Qed.

(** ** Deposit *)

(** C5, as the code has it.  For every account and every amount [m],
    [Deposit] fails with [InvalidAmount] exactly when [m < 0], and then
    returns the prior balance and changes nothing.  Otherwise it succeeds:
    the balance becomes the prior balance plus [m] reduced to the range of
    [int] (the exact sum whenever that sum does not exceed the largest
    [int]), the record [{m, new balance}] is appended to the history, and
    the new balance is returned. *)
Theorem Deposit_spec (a : ptr) (m : Z) (w : World) (acc : Account) :
  heap w !! a = Some acc ->
  exists bal e w',
    Deposit a m w = Some (bal, e, w') /\
    (kind <$> e = Some InvalidAmount <-> m < 0) /\
    (m < 0 -> bal = Bal acc /\ w' = w) /\
    (0 <= m ->
       e = None /\
       bal = wrap (Bal acc + m) /\
       w' = set_heap (<[a := mkAccount (Name acc) bal
                               (Hist acc ++ [mkHistory m bal])]> (heap w)) w /\
       (is_int (Bal acc) -> Bal acc + m <= max_int -> bal = Bal acc + m)).
Proof.
  intros H. destruct (Z.lt_ge_cases m 0) as [Hm | Hm].
  - eexists _, _, _. split; [exact (Deposit_invalid a m w acc H Hm)|].
    repeat split; try lia; auto.
  - eexists _, _, _. split; [exact (Deposit_ok a m w acc H Hm)|].
    split; [split; [discriminate | lia]|].
    split; [lia|]. intros _. repeat split.
    intros Hb Hs. apply wrap_id. unfold is_int, min_int in *. lia.
Qed.

Lemma Deposit_spec_witness :
  heap two_accounts !! 1%nat = Some (mkAccount "B" 0 []) /\
  Deposit 1%nat 42 two_accounts
  = Some (42, None,
          set_heap [mkAccount "A" 100 [mkHistory 100 100];
                    mkAccount "B" 42 [mkHistory 42 42]] two_accounts).
Proof.
  split; [reflexivity|].
  destruct (Deposit_spec 1%nat 42 two_accounts (mkAccount "B" 0 []) eq_refl)
    as (bal & e & w' & -> & _ & _ & Hok).
  destruct (Hok ltac:(lia)) as (-> & -> & -> & _). reflexivity.
Defined.

(** C5 as written fails at the top of the [int] range: depositing 1 into an
    account that holds the largest [int] succeeds and leaves the smallest
    [int] as its balance, not the prior balance plus 1. *)
Lemma Deposit_spec_counterexample :
  heap full_account !! 0%nat
  = Some (mkAccount "A" max_int [mkHistory max_int max_int]) /\
  Deposit 0%nat 1 full_account
  = Some (min_int, None,
          set_heap [mkAccount "A" min_int
                      [mkHistory max_int max_int; mkHistory 1 min_int]]
                   full_account) /\
  min_int <> max_int + 1.
Proof. split; [reflexivity|]. split; [vm_compute; reflexivity | discriminate]. Qed.

(** ** Withdraw *)

(** C6, as the code has it.  For every account and every amount [m],
    [Withdraw] fails with [InvalidAmount] if [m < 0], and with
    [InsufficientFunds] if [m] is not negative and exceeds the balance; in
    both cases the prior balance is returned and nothing changes.
    Otherwise (so also for the full balance) the balance decreases by [m],
    the record [{-m, new balance}] is appended, and the new balance is
    returned. *)
Theorem Withdraw_spec (a : ptr) (m : Z) (w : World) (acc : Account) :
  heap w !! a = Some acc ->
  is_int (Bal acc) ->
  exists bal e w',
    Withdraw a m w = Some (bal, e, w') /\
    (m < 0 -> kind <$> e = Some InvalidAmount /\ bal = Bal acc /\ w' = w) /\
    (0 <= m -> m > Bal acc ->
       kind <$> e = Some InsufficientFunds /\ bal = Bal acc /\ w' = w) /\
    (0 <= m -> m <= Bal acc ->
       e = None /\
       bal = Bal acc - m /\
       w' = set_heap (<[a := mkAccount (Name acc) bal
                               (Hist acc ++ [mkHistory (- m) bal])]> (heap w)) w).
Proof.
  intros H Hb. destruct (Z.lt_ge_cases m 0) as [Hm | Hm].
  - eexists _, _, _. split; [exact (Withdraw_invalid a m w acc H Hm)|].
    repeat split; try lia; auto.
  - destruct (Z.lt_ge_cases (Bal acc) m) as [Hf | Hf].
    + eexists _, _, _.
      split; [exact (Withdraw_funds a m w acc H Hm ltac:(lia))|].
      repeat split; try lia; auto.
    + eexists _, _, _.
      split; [exact (Withdraw_ok a m w acc H Hm Hf)|].
      split; [lia|]. split; [lia|]. intros _ _.
      unfold int_sub, int_neg.
      rewrite !wrap_id by (unfold is_int, min_int, max_int in *; lia).
      repeat split.
Qed.

Lemma Withdraw_spec_witness :
  heap two_accounts !! 0%nat = Some (mkAccount "A" 100 [mkHistory 100 100]) /\
  is_int 100 /\
  Withdraw 0%nat 100 two_accounts
  = Some (0, None,
          set_heap [mkAccount "A" 0 [mkHistory 100 100; mkHistory (-100) 0];
                    mkAccount "B" 0 []] two_accounts).
Proof.
  split; [reflexivity|].
  assert (Hi : is_int 100) by (unfold is_int, min_int, max_int; lia).
  split; [exact Hi|].
  destruct (Withdraw_spec 0%nat 100 two_accounts
              (mkAccount "A" 100 [mkHistory 100 100]) eq_refl Hi)
    as (bal & e & w' & -> & _ & _ & Hok).
  destruct (Hok ltac:(lia) ltac:(simpl; lia)) as (-> & -> & ->). reflexivity.
Defined.

(** C6 as written fails where both conditions hold: on an account whose
    balance is -2, withdrawing -1 (which is negative and exceeds the
    balance) fails with [InvalidAmount], not with [InsufficientFunds]. *)
Lemma Withdraw_spec_counterexample :
  heap overdrawn_account !! 0%nat
  = Some (mkAccount "A" (-2) [mkHistory max_int max_int; mkHistory max_int (-2)]) /\
  -1 > -2 /\
  Withdraw 0%nat (-1) overdrawn_account
  = Some (-2, Some (ErrWithdrawAmount (-1)), overdrawn_account) /\
  kind (ErrWithdrawAmount (-1)) <> InsufficientFunds.
Proof.
  split; [reflexivity|]. split; [lia|].
  split; [vm_compute; reflexivity | discriminate].
Qed.

(** ** Transfer *)

(** C2, as the code has it.  For two different accounts A and B and every
    amount [m] with [0 <= m <= A's balance], [Transfer] succeeds: A's
    balance decreases by [m]; B's balance becomes its prior balance plus
    [m] reduced to the range of [int] (the exact sum whenever that sum does
    not exceed the largest [int]); A gains exactly the record
    [{-m, A's new balance}] and B exactly [{m, B's new balance}]; the pair
    of new balances is returned; names, the other accounts, the registry
    and the file are untouched. *)
Theorem Transfer_spec (a b : ptr) (m : Z) (w : World) (A B : Account) :
  heap w !! a = Some A ->
  heap w !! b = Some B ->
  a <> b ->
  is_int (Bal A) ->
  0 <= m -> m <= Bal A ->
  let abal := Bal A - m in
  let bbal := wrap (Bal B + m) in
  Transfer a b m w
  = Some (abal, bbal, None,
          set_heap
            (<[b := mkAccount (Name B) bbal (Hist B ++ [mkHistory m bbal])]>
               (<[a := mkAccount (Name A) abal (Hist A ++ [mkHistory (- m) abal])]>
                  (heap w))) w) /\
  (is_int (Bal B) -> Bal B + m <= max_int -> bbal = Bal B + m).
Proof.
  intros HA HB Hne Hi Hm Hb abal bbal. split.
  - rewrite (Transfer_ok a b m w A B HA HB Hne Hm Hb).
    unfold int_sub, int_neg, int_add, abal, bbal.
    rewrite (wrap_id (Bal A - m)), (wrap_id (- m))
      by (unfold is_int, min_int, max_int in *; lia).
    reflexivity.
  - intros HiB Hs. apply wrap_id. unfold is_int, min_int in *. lia.
Qed.

Lemma Transfer_spec_witness :
  heap two_accounts !! 0%nat = Some (mkAccount "A" 100 [mkHistory 100 100]) /\
  heap two_accounts !! 1%nat = Some (mkAccount "B" 0 []) /\
  is_int 100 /\
  Transfer 0%nat 1%nat 100 two_accounts
  = Some (0, 100, None,
          set_heap [mkAccount "A" 0 [mkHistory 100 100; mkHistory (-100) 0];
                    mkAccount "B" 100 [mkHistory 100 100]] two_accounts).
Proof.
  assert (Hi : is_int 100) by (unfold is_int, min_int, max_int; lia).
  split; [reflexivity|]. split; [reflexivity|]. split; [exact Hi|].
  destruct (Transfer_spec 0%nat 1%nat 100 two_accounts
              (mkAccount "A" 100 [mkHistory 100 100]) (mkAccount "B" 0 [])
              eq_refl eq_refl ltac:(discriminate) Hi ltac:(lia) ltac:(simpl; lia))
    as [-> _].
  reflexivity.
Defined.

(** C2 as written fails in two places.  Into an account that holds the
    largest [int], a transfer of 1 leaves the smallest [int], not the prior
    balance plus 1.  And when source and destination are the same account,
    a transfer of 50 leaves the balance at 100 and appends two records to
    that one account. *)
Lemma Transfer_spec_counterexample :
  (let w := mkWorld [mkAccount "A" 1 [mkHistory 1 1];
                     mkAccount "B" max_int [mkHistory max_int max_int]]
                    (Some (<["B" := 1%nat]> (<["A" := 0%nat]> ∅))) no_file in
   Transfer 0%nat 1%nat 1 w
   = Some (0, min_int, None,
           set_heap [mkAccount "A" 0 [mkHistory 1 1; mkHistory (-1) 0];
                     mkAccount "B" min_int
                       [mkHistory max_int max_int; mkHistory 1 min_int]] w) /\
   min_int <> max_int + 1) /\
  (Transfer 0%nat 0%nat 50 two_accounts
   = Some (100, 100, None,
           set_heap [mkAccount "A" 100
                       [mkHistory 100 100; mkHistory (-50) 100; mkHistory 50 100];
                     mkAccount "B" 0 []] two_accounts) /\
   100 <> 100 - 50).
Proof.
  split; (split; [vm_compute; reflexivity | discriminate]).
Qed.

(** C4.  For every pair of accounts and every amount [m] that is not
    negative and exceeds the source's balance, [Transfer] fails with
    [InsufficientFunds] and returns [(0, source balance)], the source's
    balance being unchanged (as is everything else). *)
Theorem Transfer_insufficient (a b : ptr) (m : Z) (w : World) (A B : Account) :
  heap w !! a = Some A ->
  heap w !! b = Some B ->
  0 <= m -> m > Bal A ->
  exists e,
    Transfer a b m w = Some (0, Bal A, Some e, w) /\
    kind e = InsufficientFunds.
Proof.
  intros HA _ Hm Hb. exists (ErrTransferFunds m (Bal A)).
  split; [exact (Transfer_funds a b m w A HA Hm Hb) | reflexivity].
Qed.

Lemma Transfer_insufficient_witness :
  heap two_accounts !! 1%nat = Some (mkAccount "B" 0 []) /\
  heap two_accounts !! 0%nat = Some (mkAccount "A" 100 [mkHistory 100 100]) /\
  exists e,
    Transfer 1%nat 0%nat 300 two_accounts = Some (0, 0, Some e, two_accounts) /\
    kind e = InsufficientFunds.
Proof.
  split; [reflexivity|]. split; [reflexivity|].
  exact (Transfer_insufficient 1%nat 0%nat 300 two_accounts
           (mkAccount "B" 0 []) (mkAccount "A" 100 [mkHistory 100 100])
           eq_refl eq_refl ltac:(lia) ltac:(simpl; lia)).
Defined.

(** C10.  For every pair of accounts and every negative amount [m],
    [Transfer] fails with [InvalidAmount] and returns the pair of the two
    current balances, both unchanged. *)
Theorem Transfer_invalid_amount (a b : ptr) (m : Z) (w : World) (A B : Account) :
  heap w !! a = Some A ->
  heap w !! b = Some B ->
  m < 0 ->
  exists e,
    Transfer a b m w = Some (Bal A, Bal B, Some e, w) /\
    kind e = InvalidAmount.
Proof.
  intros HA HB Hm. exists (ErrTransferAmount m).
  split; [exact (Transfer_invalid a b m w A B HA HB Hm) | reflexivity].
Qed.

Lemma Transfer_invalid_amount_witness :
  heap two_accounts !! 0%nat = Some (mkAccount "A" 100 [mkHistory 100 100]) /\
  heap two_accounts !! 1%nat = Some (mkAccount "B" 0 []) /\
  exists e,
    Transfer 0%nat 1%nat (-100) two_accounts = Some (100, 0, Some e, two_accounts) /\
    kind e = InvalidAmount.
Proof.
  split; [reflexivity|]. split; [reflexivity|].
  exact (Transfer_invalid_amount 0%nat 1%nat (-100) two_accounts
           (mkAccount "A" 100 [mkHistory 100 100]) (mkAccount "B" 0 [])
           eq_refl eq_refl ltac:(lia)).
Defined.

(** ** Every way a transaction can return *)

Lemma get_Bal_nil (p : ptr) (w : World) :
  heap w !! p = None -> get_Bal p w = None.
Proof. unfold get_Bal, bind, deref. intros ->. reflexivity. Qed.

Lemma Deposit_cases (a : ptr) (m : Z) (w w' : World) (r : Z * option error) :
  Deposit a m w = Some (r, w') ->
  exists acc, heap w !! a = Some acc /\
    ((m < 0 /\ r = (Bal acc, Some (ErrDepositAmount m)) /\ w' = w) \/
     (0 <= m /\ r = (int_add (Bal acc) m, None) /\
      w' = set_heap (<[a := mkAccount (Name acc) (int_add (Bal acc) m)
                              (Hist acc ++ [mkHistory m (int_add (Bal acc) m)])]>
                       (heap w)) w)).
Proof.
  intros H. destruct (heap w !! a) as [acc|] eqn:Ha.
  - exists acc. split; [reflexivity|].
    destruct (Z.lt_ge_cases m 0) as [Hm | Hm].
    + rewrite (Deposit_invalid a m w acc Ha Hm) in H. inversion H. auto.
    + rewrite (Deposit_ok a m w acc Ha Hm) in H. inversion H. auto.
  - exfalso. unfold Deposit in H.
    destruct (m <? 0); unfold bind in H;
      rewrite (get_Bal_nil a w Ha) in H; discriminate.
Qed.

Lemma Withdraw_cases (a : ptr) (m : Z) (w w' : World) (r : Z * option error) :
  Withdraw a m w = Some (r, w') ->
  exists acc, heap w !! a = Some acc /\
    ((m < 0 /\ r = (Bal acc, Some (ErrWithdrawAmount m)) /\ w' = w) \/
     (0 <= m /\ m > Bal acc /\
      r = (Bal acc, Some (ErrWithdrawFunds m (Bal acc))) /\ w' = w) \/
     (0 <= m /\ m <= Bal acc /\ r = (int_sub (Bal acc) m, None) /\
      w' = set_heap (<[a := mkAccount (Name acc) (int_sub (Bal acc) m)
                              (Hist acc ++ [mkHistory (int_neg m) (int_sub (Bal acc) m)])]>
                       (heap w)) w)).
Proof.
  intros H. destruct (heap w !! a) as [acc|] eqn:Ha.
  - exists acc. split; [reflexivity|].
    destruct (Z.lt_ge_cases m 0) as [Hm | Hm].
    + rewrite (Withdraw_invalid a m w acc Ha Hm) in H. inversion H. auto.
    + destruct (Z.lt_ge_cases (Bal acc) m) as [Hf | Hf].
      * rewrite (Withdraw_funds a m w acc Ha Hm ltac:(lia)) in H.
        inversion H. right; left. repeat split; auto; lia.
      * rewrite (Withdraw_ok a m w acc Ha Hm Hf) in H. inversion H. auto 10.
  - exfalso. unfold Withdraw in H.
    destruct (m <? 0); unfold bind in H;
      rewrite (get_Bal_nil a w Ha) in H; discriminate.
Qed.

Lemma Transfer_cases (a b : ptr) (m : Z) (w w' : World) (r : Z * Z * option error) :
  Transfer a b m w = Some (r, w') ->
  exists A, heap w !! a = Some A /\
    ((m < 0 /\ exists B, heap w !! b = Some B /\
        r = (Bal A, Bal B, Some (ErrTransferAmount m)) /\ w' = w) \/
     (0 <= m /\ m > Bal A /\
      r = (0, Bal A, Some (ErrTransferFunds m (Bal A))) /\ w' = w) \/
     (0 <= m /\ m <= Bal A /\ a = b /\
      r = (int_add (int_sub (Bal A) m) m, int_add (int_sub (Bal A) m) m, None) /\
      w' = set_heap
             (<[a := mkAccount (Name A) (int_add (int_sub (Bal A) m) m)
                       (Hist A ++ [mkHistory (int_neg m) (int_add (int_sub (Bal A) m) m);
                                   mkHistory m (int_add (int_sub (Bal A) m) m)])]>
                (heap w)) w) \/
     (0 <= m /\ m <= Bal A /\ a <> b /\ exists B, heap w !! b = Some B /\
      r = (int_sub (Bal A) m, int_add (Bal B) m, None) /\
      w' = set_heap
             (<[b := mkAccount (Name B) (int_add (Bal B) m)
                       (Hist B ++ [mkHistory m (int_add (Bal B) m)])]>
                (<[a := mkAccount (Name A) (int_sub (Bal A) m)
                          (Hist A ++ [mkHistory (int_neg m) (int_sub (Bal A) m)])]>
                   (heap w))) w)).
Proof.
  intros H. destruct (heap w !! a) as [A|] eqn:Ha.
  2:{ exfalso. unfold Transfer in H.
      destruct (m <? 0); unfold bind in H;
        rewrite (get_Bal_nil a w Ha) in H; discriminate. }
  exists A. split; [reflexivity|].
  destruct (Z.lt_ge_cases m 0) as [Hm | Hm].
  { left. split; [exact Hm|].
    destruct (heap w !! b) as [B|] eqn:Hb.
    - exists B. rewrite (Transfer_invalid a b m w A B Ha Hb Hm) in H.
      inversion H. auto.
    - exfalso. unfold Transfer in H.
      destruct (Z.ltb_spec m 0); [|lia]. unfold bind in H.
      rewrite (get_Bal_eq a A w Ha), (get_Bal_nil b w Hb) in H. discriminate. }
  destruct (Z.lt_ge_cases (Bal A) m) as [Hf | Hf].
  { right; left. rewrite (Transfer_funds a b m w A Ha Hm ltac:(lia)) in H.
    inversion H. repeat split; auto; lia. }
  destruct (decide (a = b)) as [<- | Hne].
  { right; right; left.
    rewrite (Transfer_self a m w A Ha Hm Hf) in H. inversion H. auto 10. }
  right; right; right. do 3 (split; [assumption|]).
  destruct (heap w !! b) as [B|] eqn:Hb.
  - exists B. rewrite (Transfer_ok a b m w A B Ha Hb Hne Hm Hf) in H.
    inversion H. auto.
  - exfalso. unfold Transfer in H.
    destruct (Z.ltb_spec m 0); [lia|].
    unfold bind at 1 in H. rewrite (get_Bal_eq a A w Ha) in H.
    destruct (Z.gtb_spec m (Bal A)); [lia|].
    unfold bind in H.
    rewrite (get_Bal_eq a A w Ha), (set_Bal_eq a A _ w Ha) in H.
    rewrite get_Bal_nil in H; [discriminate|].
    simpl. rewrite list_lookup_insert_ne by exact Hne. exact Hb.
Qed.

(** ** Failed calls *)

(** C7.  Whenever [Deposit], [Withdraw] or [Transfer] returns an error, the
    state after the call is the state before it: no balance and no history
    has changed. *)
Theorem failure_leaves_state (w w' : World) (e : error) :
  (forall a m bal, Deposit a m w = Some (bal, Some e, w') -> w' = w) /\
  (forall a m bal, Withdraw a m w = Some (bal, Some e, w') -> w' = w) /\
  (forall a b m abal bbal,
     Transfer a b m w = Some (abal, bbal, Some e, w') -> w' = w).
Proof.
  split; [|split].
  - intros a m bal H.
    destruct (Deposit_cases _ _ _ _ _ H) as (acc & _ & [(_ & _ & ->) | (_ & Hr & _)]);
      [reflexivity | discriminate].
  - intros a m bal H.
    destruct (Withdraw_cases _ _ _ _ _ H)
      as (acc & _ & [(_ & _ & ->) | [(_ & _ & _ & ->) | (_ & _ & Hr & _)]]);
      [reflexivity | reflexivity | discriminate].
  - intros a b m abal bbal H.
    destruct (Transfer_cases _ _ _ _ _ _ H)
      as (A & _ & [(_ & B & _ & _ & ->) | [(_ & _ & _ & ->) |
                   [(_ & _ & _ & Hr & _) | (_ & _ & _ & B & _ & Hr & _)]]]);
      [reflexivity | reflexivity | discriminate | discriminate].
Qed.

Lemma failure_leaves_state_witness :
  Deposit 0%nat (-1) two_accounts
  = Some (100, Some (ErrDepositAmount (-1)), two_accounts) /\
  Withdraw 0%nat 1000 two_accounts
  = Some (100, Some (ErrWithdrawFunds 1000 100), two_accounts) /\
  Transfer 1%nat 0%nat 100 two_accounts
  = Some (0, 0, Some (ErrTransferFunds 100 0), two_accounts).
Proof.
  assert (HD : exists w', Deposit 0%nat (-1) two_accounts
                          = Some (100, Some (ErrDepositAmount (-1)), w'))
    by (eexists; vm_compute; reflexivity).
  assert (HW : exists w', Withdraw 0%nat 1000 two_accounts
                          = Some (100, Some (ErrWithdrawFunds 1000 100), w'))
    by (eexists; vm_compute; reflexivity).
  assert (HT : exists w', Transfer 1%nat 0%nat 100 two_accounts
                          = Some (0, 0, Some (ErrTransferFunds 100 0), w'))
    by (eexists; vm_compute; reflexivity).
  destruct HD as [w1 HD], HW as [w2 HW], HT as [w3 HT].
  rewrite HD, HW, HT.
  rewrite (proj1 (failure_leaves_state two_accounts w1 _) _ _ _ HD).
  rewrite (proj1 (proj2 (failure_leaves_state two_accounts w2 _)) _ _ _ HW).
  rewrite (proj2 (proj2 (failure_leaves_state two_accounts w3 _)) _ _ _ _ _ HT).
  repeat split.
Defined.

(** ** The ledger invariant *)

Lemma sum_amounts_snoc (h : list history) (r : history) :
  sum_amounts (h ++ [r]) = sum_amounts h + Amt r.
Proof. induction h as [|x h IH]; simpl; [lia | rewrite IH; lia]. Qed.

Lemma end_balance_cons (s : Z) (x : history) (h : list history) :
  end_balance s (x :: h) = end_balance (HBal x) h.
Proof.
  unfold end_balance. destruct h as [|y h]; [reflexivity|].
  change (last (x :: y :: h)) with (last (y :: h)).
  destruct (last (y :: h)) eqn:E; [reflexivity|].
  apply last_None in E. discriminate.
Qed.

Lemma replays_int_snoc (s : Z) (h : list history) (r : history) :
  replays_int s h ->
  HBal r = int_add (end_balance s h) (Amt r) ->
  replays_int s (h ++ [r]).
Proof.
  revert s. induction h as [|x h IH]; intros s Hh Hr.
  - simpl. split; [exact Hr | exact I].
  - destruct Hh as [Hx Hh]. split; [exact Hx|].
    apply IH; [exact Hh|]. rewrite (end_balance_cons s) in Hr. exact Hr.
Qed.

Lemma ledger_inv_int_end (a : Account) :
  ledger_inv_int a -> end_balance 0 (Hist a) = Bal a.
Proof.
  intros (Hb & _ & Hl). unfold end_balance, last_is_balance in *.
  destruct (last (Hist a)) eqn:E; [exact Hl|].
  apply last_None in E. rewrite Hb, E. reflexivity.
Qed.

Lemma int_sub_neg (x m : Z) : int_sub x m = int_add x (int_neg m).
Proof.
  unfold int_sub, int_add, int_neg. rewrite wrap_add_r. f_equal; lia.
Qed.

(** A fresh account satisfies the invariant. *)
Lemma ledger_inv_int_new (s : string) : ledger_inv_int (mkAccount s 0 []).
Proof. repeat split. Qed.

(** Booking an amount and recording it with the new balance keeps it. *)
Lemma ledger_inv_int_book (a : Account) (x : Z) :
  ledger_inv_int a ->
  ledger_inv_int (mkAccount (Name a) (int_add (Bal a) x)
                            (Hist a ++ [mkHistory x (int_add (Bal a) x)])).
Proof.
  intros Ha. pose proof (ledger_inv_int_end a Ha) as He.
  destruct Ha as (Hb & Hr & Hl). unfold ledger_inv_int. cbn [Bal Hist].
  split; [|split].
  - rewrite sum_amounts_snoc. cbn [Amt]. unfold int_add.
    rewrite Hb, wrap_add_l. reflexivity.
  - apply replays_int_snoc; [exact Hr|]. cbn [Amt HBal]. rewrite He. reflexivity.
  - unfold last_is_balance. cbn [Bal Hist]. rewrite last_snoc. reflexivity.
Qed.

Lemma run_op_keeps_inv (o : op) (w w' : World) :
  Forall ledger_inv_int (heap w) ->
  distinct_accounts o ->
  run_op o w = Some (tt, w') ->
  Forall ledger_inv_int (heap w').
Proof.
  intros Hw Hd H. destruct o as [s | a m | a m | a b m]; unfold run_op, bind in H.
  - cbn in H. inversion H. cbn.
    apply Forall_app. split; [exact Hw|].
    constructor; [apply ledger_inv_int_new | constructor].
  - destruct (Deposit a m w) as [[r w1]|] eqn:E; [|discriminate].
    inversion H; subst w1.
    destruct (Deposit_cases _ _ _ _ _ E) as (acc & Ha & [(_ & _ & ->) | (_ & _ & ->)]);
      [exact Hw|].
    cbn. apply Forall_insert; [exact Hw|].
    apply ledger_inv_int_book. exact (Forall_lookup_1 _ _ _ _ Hw Ha).
  - destruct (Withdraw a m w) as [[r w1]|] eqn:E; [|discriminate].
    inversion H; subst w1.
    destruct (Withdraw_cases _ _ _ _ _ E)
      as (acc & Ha & [(_ & _ & ->) | [(_ & _ & _ & ->) | (_ & _ & _ & ->)]]);
      [exact Hw | exact Hw |].
    cbn. apply Forall_insert; [exact Hw|].
    rewrite int_sub_neg.
    apply ledger_inv_int_book. exact (Forall_lookup_1 _ _ _ _ Hw Ha).
  - destruct (Transfer a b m w) as [[r w1]|] eqn:E; [|discriminate].
    inversion H; subst w1. cbn in Hd.
    destruct (Transfer_cases _ _ _ _ _ _ E)
      as (A & Ha & [(_ & B & _ & _ & ->) | [(_ & _ & _ & ->) |
                    [(_ & _ & Heq & _) | (_ & _ & _ & B & Hb & _ & ->)]]]);
      [exact Hw | exact Hw | contradiction |].
    cbn. apply Forall_insert; [apply Forall_insert; [exact Hw|]|].
    + rewrite int_sub_neg.
      apply ledger_inv_int_book. exact (Forall_lookup_1 _ _ _ _ Hw Ha).
    + apply ledger_inv_int_book. exact (Forall_lookup_1 _ _ _ _ Hw Hb).
Qed.

Lemma run_ops_keep_inv (os : list op) (w w' : World) :
  Forall ledger_inv_int (heap w) ->
  Forall distinct_accounts os ->
  run_ops os w = Some (tt, w') ->
  Forall ledger_inv_int (heap w').
Proof.
  revert w. induction os as [|o os IH]; intros w Hw Hd H.
  - inversion H. subst. exact Hw.
  - cbn [run_ops] in H. unfold bind in H.
    destruct (run_op o w) as [[[] w1]|] eqn:E; [|discriminate].
    inversion Hd; subst.
    apply (IH w1); [|assumption|exact H].
    eapply run_op_keeps_inv; eassumption.
Qed.

(** C1, as the code has it.  In every state reached from the start of the
    process by creating accounts, depositing, withdrawing and transferring
    between two different accounts, every account satisfies the invariant
    in [int] arithmetic: its balance is the sum of its history amounts
    reduced to the range of [int] (the exact sum whenever that sum is an
    [int]), replaying the amounts from 0 with [int] addition meets every
    record's resulting balance, and the last record's resulting balance is
    the current balance.  Every further such operation that returns keeps
    the invariant. *)
Theorem ledger_invariant (os : list op) (d : FS) (w : World) :
  Forall distinct_accounts os ->
  run_ops os (init_world d) = Some (tt, w) ->
  Forall ledger_inv_int (heap w) /\
  (forall p a, heap w !! p = Some a ->
     is_int (sum_amounts (Hist a)) -> Bal a = sum_amounts (Hist a)) /\
  (forall o w', distinct_accounts o -> run_op o w = Some (tt, w') ->
     Forall ledger_inv_int (heap w')).
Proof.
  intros Hd H.
  assert (Hw : Forall ledger_inv_int (heap w)).
  { apply (run_ops_keep_inv os (init_world d) w); [constructor | exact Hd | exact H]. }
  split; [exact Hw|]. split.
  - intros p a Ha Hi.
    destruct (Forall_lookup_1 _ _ _ _ Hw Ha) as (Hb & _).
    rewrite Hb. apply wrap_id, Hi.
  - intros o w' Ho Hrun. eapply run_op_keeps_inv; eassumption.
Qed.

Lemma ledger_invariant_witness :
  Forall ledger_inv_int
    [mkAccount "A" 0 [mkHistory 100 100; mkHistory (-100) 0];
     mkAccount "B" 100 [mkHistory 100 100]].
Proof.
  refine (proj1 (ledger_invariant
            [OpNewAccount "A"; OpNewAccount "B"; OpDeposit 0%nat 100;
             OpTransfer 0%nat 1%nat 100]
            no_file
            (set_heap [mkAccount "A" 0 [mkHistory 100 100; mkHistory (-100) 0];
                       mkAccount "B" 100 [mkHistory 100 100]] two_accounts)
            _ _)).
  - repeat constructor. discriminate.
  - vm_compute. reflexivity.
Defined.

(** C1 as written fails in two places.  Over the integers, two deposits
    that pass the largest [int] leave a balance that is not the sum of the
    recorded amounts.  And a transfer from an account to itself records,
    for the debit, the balance after the credit: replaying the amounts does
    not meet that record. *)
Lemma ledger_invariant_counterexample :
  (let a := mkAccount "A" min_int [mkHistory max_int max_int; mkHistory 1 min_int] in
   run_ops [OpNewAccount "A"; OpDeposit 0%nat max_int; OpDeposit 0%nat 1]
           (init_world no_file)
   = Some (tt, set_heap [a] full_account) /\
   Bal a <> sum_amounts (Hist a)) /\
  (let a := mkAccount "A" 100
              [mkHistory 100 100; mkHistory (-50) 100; mkHistory 50 100] in
   run_ops [OpNewAccount "A"; OpDeposit 0%nat 100; OpTransfer 0%nat 0%nat 50]
           (init_world no_file)
   = Some (tt, mkWorld [a] (Some (<["A" := 0%nat]> ∅)) no_file) /\
   ~ replays 0 (Hist a) /\ ~ replays_int 0 (Hist a)).
Proof.
  split.
  - split; [vm_compute; reflexivity | discriminate].
  - split; [vm_compute; reflexivity|].
    split; intros (_ & H & _); vm_compute in H; discriminate.
Qed.

(** ** Creating accounts *)

(** C9.  For every name, [NewAccount] allocates a new account with that
    name, balance 0 and empty history, registers it under the name and
    returns it.  It never fails: an account already registered under the
    name is replaced, so that the name now leads to the new, empty account;
    the other names keep their accounts, and no existing account is
    modified. *)
Theorem NewAccount_spec (s : string) (w : World) :
  let p := length (heap w) in
  let w' := mkWorld (heap w ++ [mkAccount s 0 []])
                    (Some (<[s := p]> (default ∅ (accounts w)))) (disk w) in
  NewAccount s w = Some (p, w') /\
  heap w !! p = None /\
  heap w' !! p = Some (mkAccount s 0 []) /\
  GetAccount s w' = Some (Some p, None, w') /\
  registry_view w' !! s = Some (mkAccount s 0 []) /\
  (forall name, name <> s ->
     default ∅ (accounts w') !! name = default ∅ (accounts w) !! name) /\
  (forall q old, heap w !! q = Some old -> heap w' !! q = Some old).
Proof.
  intros p w'.
  assert (Hp : heap w' !! p = Some (mkAccount s 0 [])).
  { unfold w', p. cbn [heap]. apply list_lookup_middle. reflexivity. }
  split; [|split; [|split; [|split; [|split; [|split]]]]].
  - unfold NewAccount, bind, new. cbn [heap accounts set_heap set_accounts disk].
    unfold w', p. destruct (accounts w); reflexivity.
  - apply lookup_ge_None. unfold p. lia.
  - exact Hp.
  - unfold GetAccount, w'. cbn [accounts]. rewrite lookup_insert_eq. reflexivity.
  - unfold registry_view.
    change (default ∅ (accounts w')) with (<[s:=p]> (default ∅ (accounts w))).
    rewrite lookup_omap, lookup_insert_eq. exact Hp.
  - intros name Hn.
    change (default ∅ (accounts w')) with (<[s:=p]> (default ∅ (accounts w))).
    apply lookup_insert_ne. congruence.
  - intros q old Hq. unfold w'. cbn [heap]. apply lookup_app_l_Some, Hq.
Qed.

Lemma NewAccount_spec_witness :
  registry_view two_accounts !! "A" = Some (mkAccount "A" 100 [mkHistory 100 100]) /\
  exists w',
    NewAccount "A" two_accounts = Some (2%nat, w') /\
    registry_view w' !! "A" = Some (mkAccount "A" 0 []).
Proof.
  split; [vm_compute; reflexivity|].
  destruct (NewAccount_spec "A" two_accounts) as (H & _ & _ & _ & Hv & _).
  eexists. split; [exact H | exact Hv].
Defined.

(** ** The history reader *)

Lemma next_at (a : ptr) (w : World) (acc : Account) (i : nat) (m : bool) (x : history) :
  heap w !! a = Some acc ->
  Hist acc !! i = Some x ->
  next (mkReader a i m) w
  = Some (Amt x, HBal x,
          (if bool_decide (S i < length (Hist acc))%nat then m else false),
          mkReader a (S i)
            (if bool_decide (S i < length (Hist acc))%nat then m else false),
          w).
Proof.
  intros Ha Hx. pose proof (lookup_lt_Some _ _ _ Hx) as Hlt.
  unfold next. cbn [r_acct r_i r_more].
  unfold bind at 1. rewrite (get_Hist_eq a acc w Ha).
  destruct (Z.eqb_spec (Z.of_nat (length (Hist acc))) 0) as [E|_]; [lia|].
  unfold bind. rewrite (get_Hist_eq a acc w Ha). cbv beta iota.
  rewrite (get_Hist_eq a acc w Ha). cbv beta iota. rewrite Hx. unfold ret.
  destruct (Z.geb_spec (Z.of_nat i) (Z.of_nat (length (Hist acc)) - 1)).
  - rewrite bool_decide_eq_false_2 by lia. reflexivity.
  - rewrite bool_decide_eq_true_2 by lia. reflexivity.
Qed.

Lemma calls_S (n : nat) (r : reader) (w : World) :
  calls (S n) r w
  = match next r w with
    | Some (x, w') =>
        match calls n (snd x) w' with
        | Some (xs, w'') => Some (fst x :: xs, w'')
        | None => None
        end
    | None => None
    end.
Proof. reflexivity. Qed.

Lemma calls_from (a : ptr) (w : World) (acc : Account) (suf pre : list history) :
  heap w !! a = Some acc ->
  Hist acc = pre ++ suf ->
  calls (length suf) (mkReader a (length pre) true) w
  = Some (imap (fun k r =>
                  (Amt r, HBal r,
                   bool_decide (S (length pre + k) < length (Hist acc))%nat)) suf,
          w).
Proof.
  intros Ha. revert pre. induction suf as [|x suf IH]; intros pre Hh.
  - reflexivity.
  - assert (Hx : Hist acc !! length pre = Some x)
      by (rewrite Hh; apply list_lookup_middle; reflexivity).
    change (length (x :: suf)) with (S (length suf)). rewrite calls_S.
    rewrite (next_at a w acc (length pre) true x Ha Hx). cbn [fst snd].
    rewrite imap_cons. rewrite Nat.add_0_r.
    destruct suf as [|y suf].
    + cbn [calls length imap]. unfold ret.
      destruct (bool_decide (S (length pre) < length (Hist acc))%nat); reflexivity.
    + rewrite bool_decide_eq_true_2
        by (rewrite Hh, length_app; cbn [length]; lia).
      specialize (IH (pre ++ [x])). rewrite <- app_assoc in IH.
      specialize (IH Hh). rewrite length_app in IH.
      change (length [x]) with 1%nat in IH.
      rewrite Nat.add_1_r in IH. rewrite IH.
      do 3 f_equal. apply imap_ext. intros k r _. cbn.
      f_equal. apply bool_decide_ext. lia.
Qed.

(** C8.  For every account whose history has [n > 0] records, the first [n]
    calls of a fresh reader return the [n] records in order, oldest first,
    as (amount, resulting balance), with [more] true on every call but the
    [n]-th, where it is false; the account is not modified.  On an account
    with empty history the first call returns [(0, 0, false)]. *)
Theorem History_reads (a : ptr) (w : World) (acc : Account) :
  heap w !! a = Some acc ->
  (Hist acc = [] ->
     next (History a) w = Some (0, 0, false, History a, w)) /\
  (Hist acc <> [] ->
     calls (length (Hist acc)) (History a) w
     = Some (imap (fun k r =>
                     (Amt r, HBal r, bool_decide (S k < length (Hist acc))%nat))
                  (Hist acc),
             w)).
Proof.
  intros Ha. split.
  - intros He. unfold next, History. cbn [r_acct]. unfold bind.
    rewrite (get_Hist_eq a acc w Ha), He. reflexivity.
  - intros _. exact (calls_from a w acc (Hist acc) [] Ha eq_refl).
Qed.

Lemma History_reads_witness :
  calls 4 (History 0%nat) pike
  = Some ([(100, 100, true); (10, 110, true); (-40, 70, true); (23, 93, false)],
          pike) /\
  next (History 1%nat) two_accounts = Some (0, 0, false, History 1%nat, two_accounts).
Proof.
  split.
  - exact (proj2 (History_reads 0%nat pike _ eq_refl) ltac:(discriminate)).
  - exact (proj1 (History_reads 1%nat two_accounts _ eq_refl) eq_refl).
Defined.

(** ** Persistence *)

Lemma registry_view_dom (w : World) :
  registry_ok w -> dom (registry_view w) = dom (default ∅ (accounts w)).
Proof.
  intros Hok. apply set_eq. intros k. rewrite !elem_of_dom.
  unfold registry_view. rewrite lookup_omap.
  destruct (default ∅ (accounts w) !! k) as [p|] eqn:E; cbn.
  - split; [eauto | intros _; exact (Hok k p E)].
  - split; intros [? ?]; discriminate.
Qed.

(** Decoding one entry: a fresh account under its key. *)
Lemma store_entry_view (k : string) (v : Account) (w : World) :
  registry_ok w ->
  let w' := mkWorld (heap w ++ [v])
                    (Some (<[k := length (heap w)]> (default ∅ (accounts w))))
                    (disk w) in
  registry_ok w' /\ registry_view w' = <[k := v]> (registry_view w).
Proof.
  intros Hok w'. split.
  - unfold registry_ok, w'. cbn [heap accounts default from_option id].
    apply map_Forall_insert_2.
    + rewrite list_lookup_middle by reflexivity. eauto.
    + intros j q Hj. destruct (Hok j q Hj) as [a Ha].
      exists a. apply lookup_app_l_Some, Ha.
  - apply map_eq. intros j. unfold registry_view, w'.
    cbn [heap accounts default from_option id].
    rewrite lookup_omap.
    destruct (decide (k = j)) as [<- | Hne].
    + rewrite !lookup_insert_eq. cbn. apply list_lookup_middle. reflexivity.
    + rewrite !lookup_insert_ne by exact Hne. rewrite lookup_omap.
      destruct (default ∅ (accounts w) !! j) as [q|] eqn:E; cbn; [|reflexivity].
      destruct (Hok j q E) as [a Ha]. rewrite Ha. apply lookup_app_l_Some, Ha.
Qed.

Lemma store_entries_view (kvs : list (string * Account)) (w : World) :
  registry_ok w ->
  exists w',
    store_entries kvs w = Some (tt, w') /\
    disk w' = disk w /\
    registry_ok w' /\
    registry_view w'
    = foldl (fun m kv => <[fst kv := snd kv]> m) (registry_view w) kvs.
Proof.
  revert w. induction kvs as [|[k v] kvs IH]; intros w Hok.
  - exists w. repeat split. exact Hok.
  - destruct (store_entry_view k v w Hok) as [Hok' Hv].
    destruct (IH _ Hok') as (w' & Hrun & Hd & Hok'' & Hv').
    exists w'. split; [|split; [exact Hd | split; [exact Hok''|]]].
    + cbn [store_entries fst snd]. unfold bind, new, set_entry.
      cbn [heap accounts disk set_heap set_accounts]. exact Hrun.
    + rewrite Hv', Hv. reflexivity.
Qed.

Lemma foldl_insert_union (kvs : list (string * Account)) (m0 : gmap string Account) :
  NoDup (kvs.*1) ->
  foldl (fun m kv => <[fst kv := snd kv]> m) m0 kvs = list_to_map kvs ∪ m0.
Proof.
  revert m0. induction kvs as [|[k v] kvs IH]; intros m0 Hnd.
  - cbn. rewrite (left_id_L ∅ (∪)). reflexivity.
  - cbn in Hnd. apply NoDup_cons in Hnd as [Hk Hnd].
    cbn [foldl fst snd list_to_map foldr]. rewrite (IH _ Hnd).
    rewrite <- insert_union_l.
    apply eq_sym, insert_union_r, not_elem_of_list_to_map_1, Hk.
Qed.

Lemma foldl_insert_map_to_list (m : gmap string Account) :
  foldl (fun acc kv => <[fst kv := snd kv]> acc) ∅ (map_to_list m) = m.
Proof.
  rewrite foldl_insert_union by apply NoDup_fst_map_to_list.
  rewrite (right_id_L ∅ (∪)). apply list_to_map_to_list.
Qed.

Lemma count_zeros_unary (n : nat) (rest : list Byte.byte) :
  count_zeros (replicate n Byte.x00 ++ Byte.x01 :: rest) = Some n.
Proof. induction n as [|n IH]; cbn; [reflexivity | rewrite IH; reflexivity]. Qed.

Lemma unary_self_delimiting : self_delimiting unary_encode unary_decode.
Proof.
  intros m rest. unfold unary_decode, unary_encode.
  rewrite <- app_assoc. cbn [app]. rewrite count_zeros_unary.
  rewrite Pos2Nat.id. apply decode_encode.
Qed.

(** What [Save] does when the file can be opened or created. *)
Lemma Save_ok (enc : gmap string Account -> list Byte.byte) (w : World) :
  registry_ok w ->
  denied (disk w) = false ->
  Save enc w
  = Some (None,
          set_disk (mkFS (Some (overwrite (enc (registry_view w))
                                          (default [] (content (disk w)))))
                         false) w).
Proof.
  intros Hok Hd. unfold Save. rewrite Hd.
  destruct (content (disk w)) as [old|] eqn:Hc; cbn [default from_option id].
  - rewrite decide_True by exact Hok. reflexivity.
  - rewrite decide_True by exact Hok. reflexivity.
Qed.

(** What [Load] does when the file is there, readable and decodes: the
    decoded entries are stored over the registry. *)
Lemma Load_ok (dec : list Byte.byte -> option (gmap string Account))
    (w : World) (bs : list Byte.byte) (m : gmap string Account) :
  registry_ok w ->
  content (disk w) = Some bs ->
  denied (disk w) = false ->
  dec bs = Some m ->
  exists w',
    Load dec w = Some (None, w') /\
    registry_ok w' /\
    registry_view w'
    = foldl (fun acc kv => <[fst kv := snd kv]> acc) (registry_view w) (map_to_list m).
Proof.
  intros Hok Hc Hd Hdec.
  assert (Hok0 : registry_ok (set_accounts (Some (default ∅ (accounts w))) w))
    by exact Hok.
  destruct (store_entries_view (map_to_list m) _ Hok0) as (w' & Hrun & _ & Hok' & Hv).
  exists w'. split; [|split; [exact Hok' | exact Hv]].
  unfold Load. rewrite Hc, Hd, Hdec. unfold bind. rewrite Hrun. reflexivity.
Qed.

(** C3.  For every registry state, when the file can be opened or created
    and the codec is self-delimiting, [Save] succeeds and changes only the
    file; clearing [accounts] and calling [Load] then succeeds and yields a
    registry with the same set of account names in which every name leads
    to an account with the name, balance and history (in order) it had
    before.  This holds whatever the file held before [Save]. *)
Theorem Save_Load_round_trip
    (enc : gmap string Account -> list Byte.byte)
    (dec : list Byte.byte -> option (gmap string Account))
    (w : World) :
  self_delimiting enc dec ->
  registry_ok w ->
  denied (disk w) = false ->
  exists w1 w2,
    Save enc w = Some (None, w1) /\
    heap w1 = heap w /\ accounts w1 = accounts w /\
    Load dec (Clear w1) = Some (None, w2) /\
    registry_ok w2 /\
    dom (default ∅ (accounts w2)) = dom (default ∅ (accounts w)) /\
    registry_view w2 = registry_view w.
Proof.
  intros Hcodec Hok Hd.
  eexists. rewrite (Save_ok enc w Hok Hd).
  set (w1 := set_disk _ w).
  assert (Hok1 : registry_ok (Clear w1))
    by (intros k p Hk; cbn in Hk; rewrite lookup_empty in Hk; discriminate).
  destruct (Load_ok dec (Clear w1) _ (registry_view w) Hok1 eq_refl eq_refl
              (Hcodec _ _))
    as (w2 & HL & Hok2 & Hv).
  assert (Hview : registry_view w2 = registry_view w).
  { rewrite Hv. unfold registry_view at 1.
    cbn [accounts Clear set_accounts default from_option id].
    rewrite omap_empty. apply foldl_insert_map_to_list. }
  exists w2. split; [reflexivity|]. split; [reflexivity|]. split; [reflexivity|].
  split; [exact HL|]. split; [exact Hok2|]. split; [|exact Hview].
  rewrite <- (registry_view_dom w2 Hok2), <- (registry_view_dom w Hok), Hview.
  reflexivity.
Qed.

Lemma Save_Load_round_trip_witness :
  self_delimiting unary_encode unary_decode /\
  registry_ok two_accounts /\
  denied (disk two_accounts) = false /\
  exists w1 w2,
    Save unary_encode two_accounts = Some (None, w1) /\
    Load unary_decode (Clear w1) = Some (None, w2) /\
    registry_view w2
    = <["B" := mkAccount "B" 0 []]>
        (<["A" := mkAccount "A" 100 [mkHistory 100 100]]> ∅).
Proof.
  assert (Hok : registry_ok two_accounts).
  { apply (bool_decide_unpack _). vm_compute. exact I. }
  split; [exact unary_self_delimiting|]. split; [exact Hok|]. split; [reflexivity|].
  destruct (Save_Load_round_trip unary_encode unary_decode two_accounts
              unary_self_delimiting Hok eq_refl)
    as (w1 & w2 & HS & _ & _ & HL & _ & _ & Hv).
  exists w1, w2. split; [exact HS|]. split; [exact HL|].
  rewrite Hv. vm_compute. reflexivity.
Defined.

(** * Further properties of the package *)

(** ** Nil pointers *)

(** X1.  Through a nil account pointer every operation panics, whatever the
    amount: [Deposit], [Withdraw] and [Transfer] read [a.Bal] even on the
    paths that only report an invalid amount. *)
Theorem nil_account_panics (a b : ptr) (m : Z) (w : World) :
  heap w !! a = None ->
  Deposit a m w = None /\ Withdraw a m w = None /\ Transfer a b m w = None /\
  Balance a w = None /\ GetName a w = None.
Proof.
  intros Ha. repeat split.
  - destruct (Deposit a m w) as [[r w']|] eqn:E; [|reflexivity].
    destruct (Deposit_cases _ _ _ _ _ E) as (acc & Hacc & _). congruence.
  - destruct (Withdraw a m w) as [[r w']|] eqn:E; [|reflexivity].
    destruct (Withdraw_cases _ _ _ _ _ E) as (acc & Hacc & _). congruence.
  - destruct (Transfer a b m w) as [[r w']|] eqn:E; [|reflexivity].
    destruct (Transfer_cases _ _ _ _ _ _ E) as (acc & Hacc & _). congruence.
  - apply get_Bal_nil, Ha.
  - unfold GetName, bind, deref. rewrite Ha. reflexivity.
Qed.

Lemma nil_account_panics_witness :
  Deposit 7%nat (-1) two_accounts = None /\
  Transfer 7%nat 0%nat 10 two_accounts = None.
Proof.
  pose proof (nil_account_panics 7%nat 0%nat (-1) two_accounts eq_refl) as (H1 & _).
  pose proof (nil_account_panics 7%nat 0%nat 10 two_accounts eq_refl)
    as (_ & _ & H3 & _).
  exact (conj H1 H3).
Defined.

(** X2.  With a nil destination [Transfer] panics when the amount is
    negative and when the source can pay, but not when the source cannot
    pay: that path returns its error without touching the destination. *)
Theorem Transfer_nil_destination (a b : ptr) (m : Z) (w : World) (A : Account) :
  heap w !! a = Some A ->
  heap w !! b = None ->
  (0 <= m -> m > Bal A ->
     Transfer a b m w = Some (0, Bal A, Some (ErrTransferFunds m (Bal A)), w)) /\
  (m < 0 \/ m <= Bal A -> Transfer a b m w = None).
Proof.
  intros Ha Hb. split.
  - intros Hm Hf. exact (Transfer_funds a b m w A Ha Hm Hf).
  - intros Hm.
    destruct (Transfer a b m w) as [[r w']|] eqn:E; [|reflexivity].
    destruct (Transfer_cases _ _ _ _ _ _ E)
      as (A' & Ha' & [(_ & B & HB & _) | [(H0 & Hf & _) |
                     [(_ & _ & Heq & _) | (_ & _ & _ & B & HB & _)]]]);
      try congruence.
    assert (A' = A) by congruence. subst A'. lia.
Qed.

Lemma Transfer_nil_destination_witness :
  Transfer 0%nat 7%nat 300 two_accounts
  = Some (0, 100, Some (ErrTransferFunds 300 100), two_accounts) /\
  Transfer 0%nat 7%nat 50 two_accounts = None.
Proof.
  pose proof (Transfer_nil_destination 0%nat 7%nat 300 two_accounts _ eq_refl eq_refl)
    as [H1 _].
  pose proof (Transfer_nil_destination 0%nat 7%nat 50 two_accounts _ eq_refl eq_refl)
    as [_ H2].
  split; [exact (H1 ltac:(lia) ltac:(simpl; lia)) | apply H2; right; simpl; lia].
Defined.

(** ** Amounts at the edges *)

(** X3.  An amount of 0 is accepted: [Deposit] of 0 succeeds, leaves the
    balance as it is and still appends the record [{0, balance}]; so does
    [Withdraw] of 0 on an account whose balance is not negative. *)
Theorem zero_amount_is_booked (a : ptr) (w : World) (acc : Account) :
  heap w !! a = Some acc ->
  is_int (Bal acc) ->
  let w' := set_heap (<[a := mkAccount (Name acc) (Bal acc)
                              (Hist acc ++ [mkHistory 0 (Bal acc)])]> (heap w)) w in
  Deposit a 0 w = Some (Bal acc, None, w') /\
  (0 <= Bal acc -> Withdraw a 0 w = Some (Bal acc, None, w')).
Proof.
  intros Ha Hi w'. split.
  - rewrite (Deposit_ok a 0 w acc Ha ltac:(lia)). unfold int_add.
    rewrite Z.add_0_r, (wrap_id _ Hi). reflexivity.
  - intros Hb. rewrite (Withdraw_ok a 0 w acc Ha ltac:(lia) Hb).
    unfold int_sub, int_neg. rewrite Z.sub_0_r, (wrap_id _ Hi). reflexivity.
Qed.

Lemma zero_amount_is_booked_witness :
  Deposit 1%nat 0 two_accounts
  = Some (0, None,
          set_heap [mkAccount "A" 100 [mkHistory 100 100];
                    mkAccount "B" 0 [mkHistory 0 0]] two_accounts).
Proof.
  assert (Hi : is_int 0) by (unfold is_int, min_int, max_int; lia).
  exact (proj1 (zero_amount_is_booked 1%nat two_accounts (mkAccount "B" 0 [])
                  eq_refl Hi)).
Defined.

(** X4.  Money never leaves an account that does not hold it: whenever
    [Withdraw] or [Transfer] succeeds, the amount was between 0 and the
    source's balance, and the balance returned for the source is not
    negative. *)
Theorem source_never_overdrawn (a b : ptr) (m : Z) (w w' : World) (A : Account)
    (x y : Z) :
  heap w !! a = Some A ->
  is_int (Bal A) ->
  (Withdraw a m w = Some (x, None, w') ->
     0 <= m <= Bal A /\ x = Bal A - m /\ 0 <= x) /\
  (Transfer a b m w = Some (x, y, None, w') -> 0 <= m <= Bal A /\ 0 <= x).
Proof.
  intros Ha Hi. split; intros H.
  - destruct (Withdraw_cases _ _ _ _ _ H)
      as (A' & Ha' & [(_ & Hr & _) | [(_ & _ & Hr & _) | (Hm & Hb & Hr & _)]]);
      try discriminate.
    assert (A' = A) by congruence. subst A'. inversion Hr.
    unfold int_sub. rewrite wrap_id by (unfold is_int, min_int, max_int in *; lia).
    lia.
  - destruct (Transfer_cases _ _ _ _ _ _ H)
      as (A' & Ha' & [(_ & B & _ & Hr & _) | [(_ & _ & Hr & _) |
                     [(Hm & Hb & _ & Hr & _) | (Hm & Hb & _ & B & _ & Hr & _)]]]);
      try discriminate;
      assert (A' = A) by congruence; subst A'; inversion Hr; split; try lia.
    + unfold int_add, int_sub. rewrite wrap_add_l.
      rewrite wrap_id by (unfold is_int, min_int, max_int in *; lia). lia.
    + unfold int_sub. rewrite wrap_id by (unfold is_int, min_int, max_int in *; lia).
      lia.
Qed.

Lemma source_never_overdrawn_witness :
  0 <= 42 <= 100 /\ 58 = 100 - 42 /\ 0 <= 58.
Proof.
  assert (Hi : is_int 100) by (unfold is_int, min_int, max_int; lia).
  refine (proj1 (source_never_overdrawn 0%nat 1%nat 42 two_accounts
                   (set_heap [mkAccount "A" 58 [mkHistory 100 100; mkHistory (-42) 58];
                              mkAccount "B" 0 []] two_accounts)
                   (mkAccount "A" 100 [mkHistory 100 100]) 58 0 eq_refl Hi) _).
  vm_compute. reflexivity.
Defined.

(** ** How the transactions compose *)

(** X5.  Depositing an amount and withdrawing it again restores the
    balance and leaves the two records in the history: for a balance that
    is not negative and a deposit that does not pass the largest [int],
    both calls succeed and the balance is the one before. *)
Theorem Deposit_then_Withdraw (a : ptr) (m : Z) (w : World) (acc : Account) :
  heap w !! a = Some acc ->
  0 <= Bal acc -> 0 <= m -> Bal acc + m <= max_int ->
  exists w1,
    Deposit a m w = Some (Bal acc + m, None, w1) /\
    Withdraw a m w1
    = Some (Bal acc, None,
            set_heap (<[a := mkAccount (Name acc) (Bal acc)
                               (Hist acc ++ [mkHistory m (Bal acc + m);
                                             mkHistory (- m) (Bal acc)])]>
                        (heap w)) w).
Proof.
  intros Ha Hb Hm Hs.
  assert (Hw : wrap (Bal acc + m) = Bal acc + m)
    by (apply wrap_id; unfold is_int, min_int, max_int in *; lia).
  eexists. split.
  - rewrite (Deposit_ok a m w acc Ha Hm). unfold int_add. rewrite Hw. reflexivity.
  - match goal with |- Withdraw a m ?w1 = _ =>
      assert (H1 : heap w1 !! a
                   = Some (mkAccount (Name acc) (Bal acc + m)
                             (Hist acc ++ [mkHistory m (Bal acc + m)])))
        by (apply (heap_set_eq a acc _ w Ha))
    end.
    rewrite (Withdraw_ok a m _ _ H1 Hm ltac:(simpl; lia)).
    cbn [Bal Hist Name heap set_heap accounts disk].
    unfold int_sub, int_neg.
    replace (Bal acc + m - m) with (Bal acc) by lia.
    rewrite (wrap_id (Bal acc)), (wrap_id (- m))
      by (unfold is_int, min_int, max_int in *; lia).
    rewrite list_insert_insert_eq, <- app_assoc. reflexivity.
Qed.

Lemma Deposit_then_Withdraw_witness :
  exists w1,
    Deposit 0%nat 42 two_accounts = Some (142, None, w1) /\
    Withdraw 0%nat 42 w1
    = Some (100, None,
            set_heap [mkAccount "A" 100
                        [mkHistory 100 100; mkHistory 42 142; mkHistory (-42) 100];
                      mkAccount "B" 0 []] two_accounts).
Proof.
  exact (Deposit_then_Withdraw 0%nat 42 two_accounts
           (mkAccount "A" 100 [mkHistory 100 100]) eq_refl
           ltac:(simpl; lia) ltac:(lia) ltac:(unfold max_int; simpl; lia)).
Defined.

(** X6.  Between two different accounts a transfer succeeds exactly when
    withdrawing the amount from the source and then depositing it into the
    destination succeed, and it returns the same balances and leaves the
    same state. *)
Theorem Transfer_is_Withdraw_then_Deposit
    (a b : ptr) (m x y : Z) (w w' : World) :
  a <> b ->
  is_Some (heap w !! b) ->
  Transfer a b m w = Some (x, y, None, w') <->
  exists w1, Withdraw a m w = Some (x, None, w1) /\
             Deposit b m w1 = Some (y, None, w').
Proof.
  intros Hne [B HB]. split.
  - intros H.
    destruct (Transfer_cases _ _ _ _ _ _ H)
      as (A & Ha & [(_ & B' & _ & Hr & _) | [(_ & _ & Hr & _) |
                    [(_ & _ & Heq & _) | (Hm & Hb & _ & B' & HB' & Hr & ->)]]]);
      try discriminate; try contradiction.
    assert (B' = B) by congruence. subst B'. inversion Hr; subst x y.
    eexists. split; [exact (Withdraw_ok a m w A Ha Hm Hb)|].
    match goal with |- Deposit b m ?w1 = _ =>
      assert (H1 : heap w1 !! b = Some B)
        by (rewrite heap_set_ne by exact Hne; exact HB)
    end.
    rewrite (Deposit_ok b m _ B H1 Hm).
    cbn [heap set_heap accounts disk]. reflexivity.
  - intros (w1 & HW & HD).
    destruct (Withdraw_cases _ _ _ _ _ HW)
      as (A & Ha & [(_ & Hr & _) | [(_ & _ & Hr & _) | (Hm & Hb & Hr & ->)]]);
      try discriminate.
    inversion Hr; subst x.
    assert (H1 : heap (set_heap (<[a := mkAccount (Name A) (int_sub (Bal A) m)
                 (Hist A ++ [mkHistory (int_neg m) (int_sub (Bal A) m)])]> (heap w)) w)
                 !! b = Some B)
      by (rewrite heap_set_ne by exact Hne; exact HB).
    rewrite (Deposit_ok b m _ B H1 Hm) in HD. inversion HD; subst y w'.
    rewrite (Transfer_ok a b m w A B Ha HB Hne Hm Hb).
    cbn [heap set_heap accounts disk]. reflexivity.
Qed.

Lemma Transfer_is_Withdraw_then_Deposit_witness :
  exists w1, Withdraw 0%nat 100 two_accounts = Some (0, None, w1) /\
             Deposit 1%nat 100 w1
             = Some (100, None,
                     set_heap [mkAccount "A" 0 [mkHistory 100 100; mkHistory (-100) 0];
                               mkAccount "B" 100 [mkHistory 100 100]] two_accounts).
Proof.
  apply (proj1 (Transfer_is_Withdraw_then_Deposit 0%nat 1%nat 100 0 100
                  two_accounts _ ltac:(discriminate) ltac:(eexists; reflexivity))).
  vm_compute. reflexivity.
Defined.

(** X7.  A transfer between two different accounts moves money and makes
    none: the two balances afterwards add up to what they added up to
    before, modulo 2^64 always and exactly when the destination does not
    pass the largest [int]; every other account is as it was. *)
Theorem Transfer_conserves_total
    (a b : ptr) (m x y : Z) (w w' : World) (A B : Account) :
  heap w !! a = Some A ->
  heap w !! b = Some B ->
  a <> b ->
  is_int (Bal A) -> is_int (Bal B) ->
  Transfer a b m w = Some (x, y, None, w') ->
  wrap (x + y) = wrap (Bal A + Bal B) /\
  (Bal B + m <= max_int -> x + y = Bal A + Bal B) /\
  (forall p, p <> a -> p <> b -> heap w' !! p = heap w !! p).
Proof.
  intros Ha Hb Hne HiA HiB H.
  destruct (Transfer_cases _ _ _ _ _ _ H)
    as (A' & Ha' & [(_ & B' & _ & Hr & _) | [(_ & _ & Hr & _) |
                   [(_ & _ & Heq & _) | (Hm & Hf & _ & B' & HB' & Hr & ->)]]]);
    try discriminate; try contradiction.
  assert (A' = A) by congruence. assert (B' = B) by congruence. subst A' B'.
  inversion Hr; subst x y. unfold int_sub, int_add.
  rewrite (wrap_id (Bal A - m)) by (unfold is_int, min_int, max_int in *; lia).
  split; [|split].
  - rewrite wrap_add_r. f_equal. lia.
  - intros Hs. rewrite wrap_id by (unfold is_int, min_int, max_int in *; lia). lia.
  - intros p Hpa Hpb. cbn [heap set_heap].
    rewrite !list_lookup_insert_ne by congruence. reflexivity.
Qed.

Lemma Transfer_conserves_total_witness : 40 + 60 = 100 + 0.
Proof.
  assert (Hi : forall z, -1000 <= z <= 1000 -> is_int z)
    by (unfold is_int, min_int, max_int; lia).
  refine (proj1 (proj2 (Transfer_conserves_total 0%nat 1%nat 60 40 60 two_accounts
            (set_heap [mkAccount "A" 40 [mkHistory 100 100; mkHistory (-60) 40];
                       mkAccount "B" 60 [mkHistory 60 60]] two_accounts)
            (mkAccount "A" 100 [mkHistory 100 100]) (mkAccount "B" 0 [])
            eq_refl eq_refl ltac:(discriminate)
            (Hi 100 ltac:(lia)) (Hi 0 ltac:(lia)) _)) _).
  - vm_compute. reflexivity.
  - unfold max_int. simpl. lia.
Defined.

(** X8.  A transfer from an account to itself succeeds when the account
    can pay: the balance is unchanged, it is returned twice, and the
    history gains the records [{-m, balance}] and [{m, balance}]. *)
Theorem Transfer_to_self (a : ptr) (m : Z) (w : World) (A : Account) :
  heap w !! a = Some A ->
  is_int (Bal A) ->
  0 <= m -> m <= Bal A ->
  Transfer a a m w
  = Some (Bal A, Bal A, None,
          set_heap (<[a := mkAccount (Name A) (Bal A)
                             (Hist A ++ [mkHistory (- m) (Bal A); mkHistory m (Bal A)])]>
                      (heap w)) w).
Proof.
  intros Ha Hi Hm Hb. rewrite (Transfer_self a m w A Ha Hm Hb). cbv zeta.
  assert (E : int_add (int_sub (Bal A) m) m = Bal A).
  { unfold int_add, int_sub. rewrite wrap_add_l.
    replace (Bal A - m + m) with (Bal A) by lia. apply wrap_id, Hi. }
  rewrite E. unfold int_neg.
  rewrite wrap_id by (unfold is_int, min_int, max_int in *; lia). reflexivity.
Qed.

Lemma Transfer_to_self_witness :
  Transfer 0%nat 0%nat 50 two_accounts
  = Some (100, 100, None,
          set_heap [mkAccount "A" 100
                      [mkHistory 100 100; mkHistory (-50) 100; mkHistory 50 100];
                    mkAccount "B" 0 []] two_accounts).
Proof.
  assert (Hi : is_int 100) by (unfold is_int, min_int, max_int; lia).
  exact (Transfer_to_self 0%nat 50 two_accounts (mkAccount "A" 100 [mkHistory 100 100])
           eq_refl Hi ltac:(lia) ltac:(simpl; lia)).
Defined.

(** ** What runs keep *)

Lemma NewAccount_eq (s : string) (w : World) :
  NewAccount s w
  = Some (length (heap w),
          mkWorld (heap w ++ [mkAccount s 0 []])
                  (Some (<[s := length (heap w)]> (default ∅ (accounts w))))
                  (disk w)).
Proof.
  unfold NewAccount, bind, new. cbn [heap accounts set_heap set_accounts disk].
  destruct (accounts w); reflexivity.
Qed.

Lemma grows_refl (h : list Account) : grows h h.
Proof. intros p x Hx. exists x. repeat split; [exact Hx | reflexivity]. Qed.

Lemma grows_trans (h1 h2 h3 : list Account) :
  grows h1 h2 -> grows h2 h3 -> grows h1 h3.
Proof.
  intros H12 H23 p x Hx.
  destruct (H12 p x Hx) as (y & Hy & Hn & Hp).
  destruct (H23 p y Hy) as (z & Hz & Hn' & Hp').
  exists z. split; [exact Hz|]. split; [congruence|]. etrans; eassumption.
Qed.

Lemma grows_app (h : list Account) (x : Account) : grows h (h ++ [x]).
Proof.
  intros p y Hy. exists y. split; [apply lookup_app_l_Some, Hy|].
  split; reflexivity.
Qed.

Lemma grows_insert (h : list Account) (a : ptr) (x x' : Account) :
  h !! a = Some x ->
  Name x' = Name x ->
  Hist x `prefix_of` Hist x' ->
  grows h (<[a := x']> h).
Proof.
  intros Ha Hn Hp p y Hy. destruct (decide (a = p)) as [<- | Hne].
  - exists x'. assert (y = x) by congruence. subst y.
    split; [apply list_lookup_insert_eq; eapply lookup_lt_Some, Ha|].
    split; assumption.
  - exists y. rewrite list_lookup_insert_ne by exact Hne.
    split; [exact Hy|]. split; reflexivity.
Qed.

(** What one operation of a run does to the heap, the registry and the
    file. *)
Lemma run_op_effect (o : op) (w w' : World) :
  run_op o w = Some (tt, w') ->
  disk w' = disk w /\
  grows (heap w) (heap w') /\
  match o with
  | OpNewAccount s =>
      accounts w' = Some (<[s := length (heap w)]> (default ∅ (accounts w))) /\
      heap w' !! length (heap w) = Some (mkAccount s 0 [])
  | _ => accounts w' = accounts w
  end.
Proof.
  intros H. destruct o as [s | a m | a m | a b m]; unfold run_op, bind in H.
  - rewrite NewAccount_eq in H. inversion H. cbn [heap accounts disk].
    split; [reflexivity|]. split; [apply grows_app|].
    split; [reflexivity | apply list_lookup_middle; reflexivity].
  - destruct (Deposit a m w) as [[r w1]|] eqn:E; [|discriminate].
    inversion H; subst w1.
    destruct (Deposit_cases _ _ _ _ _ E) as (acc & Ha & [(_ & _ & ->) | (_ & _ & ->)]).
    + repeat split. apply grows_refl.
    + repeat split. cbn [heap set_heap].
      apply (grows_insert _ _ acc); [exact Ha | reflexivity |].
      apply prefix_app_r. reflexivity.
  - destruct (Withdraw a m w) as [[r w1]|] eqn:E; [|discriminate].
    inversion H; subst w1.
    destruct (Withdraw_cases _ _ _ _ _ E)
      as (acc & Ha & [(_ & _ & ->) | [(_ & _ & _ & ->) | (_ & _ & _ & ->)]]).
    + repeat split. apply grows_refl.
    + repeat split. apply grows_refl.
    + repeat split. cbn [heap set_heap].
      apply (grows_insert _ _ acc); [exact Ha | reflexivity |].
      apply prefix_app_r. reflexivity.
  - destruct (Transfer a b m w) as [[r w1]|] eqn:E; [|discriminate].
    inversion H; subst w1.
    destruct (Transfer_cases _ _ _ _ _ _ E)
      as (A & Ha & [(_ & B & _ & _ & ->) | [(_ & _ & _ & ->) |
                    [(_ & _ & _ & _ & ->) | (_ & _ & Hne & B & Hb & _ & ->)]]]).
    + repeat split. apply grows_refl.
    + repeat split. apply grows_refl.
    + repeat split. cbn [heap set_heap].
      apply (grows_insert _ _ A); [exact Ha | reflexivity |].
      apply prefix_app_r. reflexivity.
    + repeat split. cbn [heap set_heap].
      apply (grows_trans _
               (<[a := mkAccount (Name A) (int_sub (Bal A) m)
                         (Hist A ++ [mkHistory (int_neg m) (int_sub (Bal A) m)])]>
                  (heap w))).
      * apply (grows_insert _ a A); [exact Ha | reflexivity |].
        apply prefix_app_r. reflexivity.
      * apply (grows_insert _ b B);
          [rewrite list_lookup_insert_ne by exact Hne; exact Hb | reflexivity |].
        apply prefix_app_r. reflexivity.
Qed.

Lemma run_ops_grow (os : list op) (w w' : World) :
  run_ops os w = Some (tt, w') -> grows (heap w) (heap w').
Proof.
  revert w. induction os as [|o os IH]; intros w H.
  - inversion H. apply grows_refl.
  - cbn [run_ops] in H. unfold bind in H.
    destruct (run_op o w) as [[[] w1]|] eqn:E; [|discriminate].
    destruct (run_op_effect _ _ _ E) as (_ & Hg & _).
    exact (grows_trans _ _ _ Hg (IH w1 H)).
Qed.

(** X9.  Accounts are never freed or renamed, and histories are only
    appended to: after any run, every account that existed before is still
    under its pointer, with the same name and with a history that starts
    with its earlier history. *)
Theorem runs_only_append (os : list op) (w w' : World) :
  run_ops os w = Some (tt, w') ->
  forall p x, heap w !! p = Some x ->
    exists x', heap w' !! p = Some x' /\ Name x' = Name x /\
               Hist x `prefix_of` Hist x'.
Proof. intros H. exact (run_ops_grow os w w' H). Qed.

Lemma runs_only_append_witness :
  exists x', [mkAccount "A" 0 [mkHistory 100 100; mkHistory (-100) 0];
              mkAccount "B" 100 [mkHistory 100 100]] !! 0%nat = Some x' /\
             Name x' = "A" /\ [mkHistory 100 100] `prefix_of` Hist x'.
Proof.
  refine (runs_only_append [OpTransfer 0%nat 1%nat 100; OpDeposit 1%nat (-5)]
            two_accounts
            (set_heap [mkAccount "A" 0 [mkHistory 100 100; mkHistory (-100) 0];
                       mkAccount "B" 100 [mkHistory 100 100]] two_accounts)
            _ 0%nat (mkAccount "A" 100 [mkHistory 100 100]) eq_refl).
  vm_compute. reflexivity.
Defined.

Lemma run_op_keeps_named (o : op) (w w' : World) :
  registry_named w -> run_op o w = Some (tt, w') -> registry_named w'.
Proof.
  intros Hn H. destruct (run_op_effect _ _ _ H) as (_ & Hg & Ho).
  assert (Hold : map_Forall (fun (k : string) (p : nat) =>
                   exists a, heap w' !! p = Some a /\ Name a = k)
                            (default ∅ (accounts w))).
  { intros k p Hk. destruct (Hn k p Hk) as (a & Ha & Hname).
    destruct (Hg p a Ha) as (a' & Ha' & Hname' & _).
    exists a'. split; [exact Ha' | congruence]. }
  unfold registry_named. destruct o as [s | ? ? | ? ? | ? ? ?];
    try (rewrite Ho; exact Hold).
  destruct Ho as [-> Hnew]. cbn [default from_option id].
  apply map_Forall_insert_2; [|exact Hold].
  exists (mkAccount s 0 []). split; [exact Hnew | reflexivity].
Qed.

Lemma run_ops_keep_named (os : list op) (w w' : World) :
  registry_named w -> run_ops os w = Some (tt, w') -> registry_named w'.
Proof.
  revert w. induction os as [|o os IH]; intros w Hn H.
  - inversion H. subst. exact Hn.
  - cbn [run_ops] in H. unfold bind in H.
    destruct (run_op o w) as [[[] w1]|] eqn:E; [|discriminate].
    apply (IH w1); [|exact H]. eapply run_op_keeps_named; eassumption.
Qed.

Lemma init_world_named (d : FS) : registry_named (init_world d).
Proof. intros k p Hk. cbn in Hk. rewrite lookup_empty in Hk. discriminate. Qed.

(** X10.  The registry never holds a nil pointer and never files an
    account under another name: if every registered name leads to an
    allocated account of that name, it still does after any run.  At the
    start of the process (nothing registered) this holds. *)
Theorem runs_keep_registry_named (os : list op) (w w' : World) :
  registry_named w ->
  run_ops os w = Some (tt, w') ->
  registry_named w' /\ forall d, registry_named (init_world d).
Proof.
  intros Hn H. split; [exact (run_ops_keep_named os w w' Hn H)|].
  exact init_world_named.
Qed.

Lemma runs_keep_registry_named_witness : registry_named two_accounts.
Proof.
  refine (proj1 (runs_keep_registry_named
                   [OpNewAccount "A"; OpNewAccount "B"; OpDeposit 0%nat 100]
                   (init_world no_file) two_accounts _ _)).
  - apply init_world_named.
  - vm_compute. reflexivity.
Defined.

Lemma run_ops_registered (os : list op) (w w' : World) (name : string) :
  run_ops os w = Some (tt, w') ->
  is_Some (default ∅ (accounts w') !! name) <->
  is_Some (default ∅ (accounts w) !! name) \/ name ∈ created os.
Proof.
  revert w. induction os as [|o os IH]; intros w H.
  - inversion H. subst. cbn. rewrite elem_of_nil. tauto.
  - cbn [run_ops] in H. unfold bind in H.
    destruct (run_op o w) as [[[] w1]|] eqn:E; [|discriminate].
    rewrite (IH w1 H). destruct (run_op_effect _ _ _ E) as (_ & _ & Ho).
    destruct o as [s | ? ? | ? ? | ? ? ?]; cbn [created omap list_omap];
      try (rewrite Ho; tauto).
    destruct Ho as [-> _]. cbn [default from_option id].
    fold (created os). rewrite elem_of_cons.
    destruct (decide (s = name)) as [-> | Hne].
    + rewrite lookup_insert_eq. split; [auto | intros _; left; eauto].
    + rewrite lookup_insert_ne by exact Hne. split; [tauto|].
      intros [? | [? | ?]]; [tauto | congruence | tauto].
Qed.

(** X11.  [GetAccount] never panics and never changes the state, not even
    before the first account exists (when [accounts] is nil).  After a run
    from the start of the process it finds exactly the names the run
    created: for those it returns a pointer to an allocated account of
    that name and no error; for every other name it returns a nil pointer
    and the error naming the account. *)
Theorem GetAccount_after_run (os : list op) (d : FS) (w : World) (name : string) :
  run_ops os (init_world d) = Some (tt, w) ->
  (name ∈ created os ->
     exists p a, GetAccount name w = Some (Some p, None, w) /\
                 heap w !! p = Some a /\ Name a = name) /\
  (name ∉ created os ->
     GetAccount name w = Some (None, Some (ErrNoAccount name), w)).
Proof.
  intros H.
  assert (Hn : registry_named w).
  { exact (run_ops_keep_named os (init_world d) w (init_world_named d) H). }
  pose proof (run_ops_registered os _ _ name H) as Hreg.
  cbn [init_world accounts default from_option id] in Hreg.
  rewrite lookup_empty in Hreg.
  assert (E : GetAccount name w
              = match default ∅ (accounts w) !! name with
                | Some p => Some (Some p, None, w)
                | None => Some (None, Some (ErrNoAccount name), w)
                end).
  { unfold GetAccount. destruct (accounts w) as [m|]; cbn.
    - reflexivity.
    - rewrite lookup_empty. reflexivity. }
  rewrite E. split.
  - intros Hin. destruct (proj2 Hreg (or_intror Hin)) as [p Hp].
    destruct (Hn name p Hp) as (a & Ha & Hname). rewrite Hp. eauto.
  - intros Hnin.
    destruct (default ∅ (accounts w) !! name) as [p|] eqn:Hp; [|reflexivity].
    exfalso. destruct (proj1 Hreg (ex_intro _ p eq_refl)) as [[? HF] | Hin];
      [discriminate | contradiction].
Qed.

Lemma GetAccount_after_run_witness :
  GetAccount "C" two_accounts = Some (None, Some (ErrNoAccount "C"), two_accounts) /\
  GetAccount "A" (init_world no_file)
  = Some (None, Some (ErrNoAccount "A"), init_world no_file).
Proof.
  split.
  - refine (proj2 (GetAccount_after_run
                     [OpNewAccount "A"; OpNewAccount "B"; OpDeposit 0%nat 100]
                     no_file two_accounts "C" _) _).
    + vm_compute. reflexivity.
    + cbn. intros Hin. repeat (apply elem_of_cons in Hin as [Hin | Hin];
                                 [discriminate|]).
      apply elem_of_nil in Hin. exact Hin.
  - refine (proj2 (GetAccount_after_run [] no_file (init_world no_file) "A" eq_refl) _).
    cbn. apply not_elem_of_nil.
Defined.

(** X12.  [Name] of the account [NewAccount(s)] returned is [s], and stays
    [s] after any run of further operations (the example of the test
    file, [ExampleNewAccount], for every name and every run). *)
Theorem Name_of_new_account (s : string) (os : list op) (w w1 w2 : World) (p : ptr) :
  NewAccount s w = Some (p, w1) ->
  run_ops os w1 = Some (tt, w2) ->
  GetName p w2 = Some (s, w2).
Proof.
  intros HN H. rewrite NewAccount_eq in HN. inversion HN; subst p w1.
  assert (H0 : heap (mkWorld (heap w ++ [mkAccount s 0 []])
                 (Some (<[s := length (heap w)]> (default ∅ (accounts w)))) (disk w))
               !! length (heap w) = Some (mkAccount s 0 []))
    by (apply list_lookup_middle; reflexivity).
  destruct (run_ops_grow os _ _ H _ _ H0) as (x & Hx & Hname & _).
  unfold GetName, bind. rewrite (deref_eq _ _ _ Hx). cbn in Hname.
  rewrite Hname. reflexivity.
Qed.

Lemma Name_of_new_account_witness :
  GetName 2%nat
    (mkWorld [mkAccount "A" 100 [mkHistory 100 100]; mkAccount "B" 0 [];
              mkAccount "Test" 5 [mkHistory 5 5]]
             (Some (<["Test" := 2%nat]> (<["B" := 1%nat]> (<["A" := 0%nat]> ∅))))
             no_file)
  = Some ("Test",
          mkWorld [mkAccount "A" 100 [mkHistory 100 100]; mkAccount "B" 0 [];
                   mkAccount "Test" 5 [mkHistory 5 5]]
                  (Some (<["Test" := 2%nat]> (<["B" := 1%nat]> (<["A" := 0%nat]> ∅))))
                  no_file).
Proof.
  refine (Name_of_new_account "Test" [OpDeposit 2%nat 5] two_accounts
            (mkWorld [mkAccount "A" 100 [mkHistory 100 100]; mkAccount "B" 0 [];
                      mkAccount "Test" 0 []]
               (Some (<["Test" := 2%nat]> (<["B" := 1%nat]> (<["A" := 0%nat]> ∅))))
               no_file) _ 2%nat _ _);
    vm_compute; reflexivity.
Defined.

(** ** More on the history reader *)

Lemma get_Hist_nil (p : ptr) (w : World) :
  heap w !! p = None -> get_Hist p w = None.
Proof. unfold get_Hist, bind, deref. intros ->. reflexivity. Qed.

(** Every way a call of the reader can return. *)
Lemma next_cases (r r' : reader) (w w' : World) (amt bal : Z) (more : bool) :
  next r w = Some (amt, bal, more, r', w') ->
  exists acc, heap w !! r_acct r = Some acc /\ w' = w /\
    ((Hist acc = [] /\ amt = 0 /\ bal = 0 /\ more = false /\ r' = r) \/
     (exists x, Hist acc !! r_i r = Some x /\ amt = Amt x /\ bal = HBal x /\
        more = (if bool_decide (S (r_i r) < length (Hist acc))%nat
                then r_more r else false) /\
        r' = mkReader (r_acct r) (S (r_i r)) more)).
Proof.
  intros H. destruct r as [a i m]. cbn [r_acct r_i r_more] in *.
  destruct (heap w !! a) as [acc|] eqn:Ha.
  2:{ unfold next in H. cbn [r_acct] in H. unfold bind at 1 in H.
      rewrite (get_Hist_nil a w Ha) in H. discriminate. }
  exists acc. split; [reflexivity|].
  destruct (Hist acc !! i) as [x|] eqn:Hx.
  - rewrite (next_at a w acc i m x Ha Hx) in H. inversion H; subst.
    split; [reflexivity|]. right. exists x. repeat split.
  - destruct (Hist acc) as [|y h] eqn:Hh.
    + unfold next, bind in H. cbn [r_acct] in H.
      rewrite (get_Hist_eq a acc w Ha), Hh in H. cbn in H. inversion H; subst.
      split; [reflexivity|]. left. repeat split.
    + exfalso. unfold next in H. cbn [r_acct r_i r_more] in H.
      unfold bind at 1 in H. rewrite (get_Hist_eq a acc w Ha), Hh in H.
      cbn [length] in H.
      destruct (Z.eqb_spec (Z.of_nat (S (length h))) 0) as [E|_]; [lia|].
      unfold bind in H. rewrite (get_Hist_eq a acc w Ha) in H. cbv beta iota in H.
      rewrite (get_Hist_eq a acc w Ha) in H. cbv beta iota in H.
      rewrite Hh, Hx in H. discriminate.
Qed.

(** X13.  Reading never writes: a call of the reader leaves the state as
    it is and keeps reading the same account.  And [more] never comes
    back: once a reader has [more] false, every later call that returns
    reports [more] false, also for records appended since. *)
Theorem reader_reads_only (r r' : reader) (w w' : World) (amt bal : Z) (more : bool) :
  next r w = Some (amt, bal, more, r', w') ->
  w' = w /\ r_acct r' = r_acct r /\
  (r_more r = false -> more = false /\ r_more r' = false).
Proof.
  intros H.
  destruct (next_cases _ _ _ _ _ _ _ H)
    as (acc & _ & -> & [(_ & _ & _ & -> & ->) | (x & _ & _ & _ & Hm & ->)]).
  - split; [reflexivity|]. split; [reflexivity|].
    intros Hf. split; [reflexivity | exact Hf].
  - cbn [r_acct r_more]. split; [reflexivity|]. split; [reflexivity|].
    intros Hf. rewrite Hf in Hm.
    destruct (bool_decide _) in Hm; subst more; split; reflexivity.
Qed.

Lemma reader_reads_only_witness :
  exists amt bal r',
    next (mkReader 0%nat 3%nat false) pike = Some (amt, bal, false, r', pike) /\
    r_more r' = false.
Proof.
  assert (H : next (mkReader 0%nat 3%nat false) pike
              = Some (23, 93, false, mkReader 0%nat 4%nat false, pike))
    by (vm_compute; reflexivity).
  destruct (reader_reads_only _ _ _ _ _ _ _ H) as (_ & _ & Hm).
  destruct (Hm eq_refl) as [_ Hr].
  eexists _, _, _. split; [exact H | exact Hr].
Defined.

Lemma next_past_end (a : ptr) (w : World) (acc : Account) (i : nat) (m : bool) :
  heap w !! a = Some acc ->
  Hist acc <> [] ->
  Hist acc !! i = None ->
  next (mkReader a i m) w = None.
Proof.
  intros Ha Hne Hi.
  destruct (next (mkReader a i m) w) as [[[[[amt bal] more] r'] w']|] eqn:E;
    [|reflexivity].
  destruct (next_cases _ _ _ _ _ _ _ E)
    as (acc' & Ha' & _ & [(He & _) | (x & Hx & _)]);
    cbn [r_acct r_i] in *; assert (acc' = acc) by congruence; subst acc';
    congruence.
Qed.

Lemma calls_past_end (a : ptr) (w : World) (acc : Account) (suf pre : list history) :
  heap w !! a = Some acc ->
  Hist acc = pre ++ suf ->
  suf <> [] ->
  calls (S (length suf)) (mkReader a (length pre) true) w = None.
Proof.
  intros Ha. revert pre. induction suf as [|x suf IH]; intros pre Hh Hne;
    [contradiction|].
  assert (Hx : Hist acc !! length pre = Some x)
    by (rewrite Hh; apply list_lookup_middle; reflexivity).
  rewrite calls_S, (next_at a w acc (length pre) true x Ha Hx). cbn [fst snd].
  destruct suf as [|y suf].
  - rewrite bool_decide_eq_false_2
      by (rewrite Hh, length_app; cbn [length]; lia).
    cbn [length]. rewrite calls_S.
    rewrite (next_past_end a w acc (S (length pre)) false Ha);
      [reflexivity | rewrite Hh; intros E; destruct pre; discriminate |].
    apply lookup_ge_None. rewrite Hh, length_app. cbn [length]. lia.
  - rewrite bool_decide_eq_true_2
      by (rewrite Hh, length_app; cbn [length]; lia).
    specialize (IH (pre ++ [x])). rewrite <- app_assoc in IH.
    specialize (IH Hh ltac:(discriminate)). rewrite length_app in IH.
    change (length [x]) with 1%nat in IH. rewrite Nat.add_1_r in IH.
    change (length (x :: y :: suf)) with (S (length (y :: suf))).
    rewrite IH. reflexivity.
Qed.

(** X14.  A reader must not be called once more than the history has
    records: on an account with [n > 0] records, the call after the [n]-th
    panics (index out of range). *)
Theorem reader_exhausted_panics (a : ptr) (w : World) (acc : Account) :
  heap w !! a = Some acc ->
  Hist acc <> [] ->
  calls (S (length (Hist acc))) (History a) w = None.
Proof.
  intros Ha Hne. exact (calls_past_end a w acc (Hist acc) [] Ha eq_refl Hne).
Qed.

Lemma reader_exhausted_panics_witness : calls 5 (History 0%nat) pike = None.
Proof.
  exact (reader_exhausted_panics 0%nat pike _ eq_refl ltac:(discriminate)).
Defined.

(** X15.  On an account with empty history the reader never panics and
    never advances: every call, however many, returns [(0, 0, false)]. *)
Theorem reader_on_empty_history (a : ptr) (w : World) (acc : Account) (n : nat) :
  heap w !! a = Some acc ->
  Hist acc = [] ->
  calls n (History a) w = Some (replicate n (0, 0, false), w).
Proof.
  intros Ha He. induction n as [|n IH]; [reflexivity|].
  rewrite calls_S.
  assert (H : next (History a) w = Some (0, 0, false, History a, w)).
  { unfold next, History. cbn [r_acct]. unfold bind.
    rewrite (get_Hist_eq a acc w Ha), He. reflexivity. }
  rewrite H. cbn [fst snd]. rewrite IH. reflexivity.
Qed.

Lemma reader_on_empty_history_witness :
  calls 3 (History 1%nat) two_accounts
  = Some ([(0, 0, false); (0, 0, false); (0, 0, false)], two_accounts).
Proof.
  exact (reader_on_empty_history 1%nat two_accounts _ 3 eq_refl eq_refl).
Defined.

(** ** More on persistence *)

(** X16.  When the file cannot be opened nothing is loaded or saved and
    nothing changes: [Load] without a file returns no error and leaves
    the registry as it is (nil stays nil); [Load] on a file it may not
    open and [Save] on a file it may neither open nor create return an
    I/O error, leaving memory and file untouched. *)
Theorem unopened_file_changes_nothing
    (enc : gmap string Account -> list Byte.byte)
    (dec : list Byte.byte -> option (gmap string Account)) (w : World) :
  (content (disk w) = None -> Load dec w = Some (None, w)) /\
  (is_Some (content (disk w)) -> denied (disk w) = true ->
     exists e, Load dec w = Some (Some e, w) /\ kind e = IOError) /\
  (denied (disk w) = true ->
     exists e, Save enc w = Some (Some e, w) /\ kind e = IOError).
Proof.
  split; [|split].
  - intros Hc. unfold Load. rewrite Hc. reflexivity.
  - intros [bs Hc] Hd. exists ErrLoadOpen. unfold Load. rewrite Hc, Hd. split; reflexivity.
  - intros Hd. exists ErrSaveCreate. unfold Save. rewrite Hd.
    destruct (content (disk w)); split; reflexivity.
Qed.

Lemma unopened_file_changes_nothing_witness :
  Load unary_decode (init_world no_file) = Some (None, init_world no_file).
Proof.
  exact (proj1 (unopened_file_changes_nothing unary_encode unary_decode
                  (init_world no_file)) eq_refl).
Defined.

(** X17.  [Save] never panics and writes nothing but the file: whatever
    it returns, the accounts and the registry are as before. *)
Theorem Save_writes_only_the_file
    (enc : gmap string Account -> list Byte.byte) (w : World) :
  exists e w',
    Save enc w = Some (e, w') /\ heap w' = heap w /\ accounts w' = accounts w.
Proof.
  unfold Save.
  destruct (content (disk w)) as [old|], (denied (disk w));
    try (eexists _, _; repeat split; fail);
    match goal with |- context [decide ?P] => destruct (decide P) end;
    eexists _, _; repeat split.
Qed.

(** X18.  [Save] does not truncate a file that exists: the snapshot is
    written over its first bytes and whatever the file held beyond the
    snapshot's length stays, so the file never gets shorter. *)
Theorem Save_keeps_tail
    (enc : gmap string Account -> list Byte.byte) (w : World)
    (old : list Byte.byte) :
  content (disk w) = Some old ->
  denied (disk w) = false ->
  registry_ok w ->
  let bs := enc (registry_view w) in
  exists w',
    Save enc w = Some (None, w') /\
    content (disk w') = Some (bs ++ drop (length bs) old) /\
    length (bs ++ drop (length bs) old) = (length bs `max` length old)%nat.
Proof.
  intros Hc Hd Hok bs. eexists. split; [exact (Save_ok enc w Hok Hd)|].
  cbn [disk set_disk content]. rewrite Hc. cbn [default from_option id].
  split; [reflexivity|]. rewrite length_app, length_drop. lia.
Qed.

Lemma Save_keeps_tail_witness :
  let w := set_disk (mkFS (Some [Byte.x07; Byte.x08; Byte.x09]) false) two_accounts in
  exists w',
    Save (fun _ => [Byte.x01]) w = Some (None, w') /\
    content (disk w') = Some [Byte.x01; Byte.x08; Byte.x09].
Proof.
  intros w.
  assert (Hok : registry_ok w) by (apply (bool_decide_unpack _); vm_compute; exact I).
  destruct (Save_keeps_tail (fun _ => [Byte.x01]) w _ eq_refl eq_refl Hok)
    as (w' & HS & Hc & _).
  exists w'. split; [exact HS | exact Hc].
Defined.



(** X20.  [Load] adds to the registry, it does not replace it: after a
    successful [Load] the registry holds every account of the snapshot
    under its name, and every name the snapshot does not mention still
    leads to the account it led to before. *)
Theorem Load_merges
    (dec : list Byte.byte -> option (gmap string Account))
    (w : World) (bs : list Byte.byte) (m : gmap string Account) :
  registry_ok w ->
  content (disk w) = Some bs ->
  denied (disk w) = false ->
  dec bs = Some m ->
  exists w',
    Load dec w = Some (None, w') /\
    registry_ok w' /\
    registry_view w' = m ∪ registry_view w.
Proof.
  intros Hok Hc Hd Hdec.
  destruct (Load_ok dec w bs m Hok Hc Hd Hdec) as (w' & HL & Hok' & Hv).
  exists w'. split; [exact HL|]. split; [exact Hok'|].
  rewrite Hv, foldl_insert_union by apply NoDup_fst_map_to_list.
  rewrite list_to_map_to_list. reflexivity.
Qed.

Lemma Load_merges_witness :
  let snapshot : gmap string Account := <["C" := mkAccount "C" 7 [mkHistory 7 7]]> ∅ in
  let w := set_disk (mkFS (Some []) false) two_accounts in
  exists w',
    Load (fun _ => Some snapshot) w = Some (None, w') /\
    registry_view w' !! "A" = Some (mkAccount "A" 100 [mkHistory 100 100]) /\
    registry_view w' !! "C" = Some (mkAccount "C" 7 [mkHistory 7 7]).
Proof.
  intros snapshot w.
  assert (Hok : registry_ok w) by (apply (bool_decide_unpack _); vm_compute; exact I).
  destruct (Load_merges (fun _ => Some snapshot) w [] snapshot Hok eq_refl eq_refl eq_refl)
    as (w' & HL & _ & Hv).
  exists w'. split; [exact HL|]. rewrite Hv. split; vm_compute; reflexivity.
Defined.

Lemma store_entries_fresh (kvs : list (string * Account)) (w w' : World)
    (name : string) (p : nat) :
  store_entries kvs w = Some (tt, w') ->
  default ∅ (accounts w') !! name = Some p ->
  (name ∈ fst <$> kvs /\ (length (heap w) <= p)%nat) \/
  ((name ∉ fst <$> kvs) /\ default ∅ (accounts w) !! name = Some p).
Proof.
  revert w. induction kvs as [|[k v] kvs IH]; intros w H Hp.
  - inversion H; subst. right. split; [apply not_elem_of_nil | exact Hp].
  - cbn [store_entries fst snd] in H. unfold bind, new, set_entry in H.
    cbn [heap accounts disk set_heap set_accounts] in H.
    destruct (IH _ H Hp) as [[Hin Hle] | [Hnin Hreg]].
    + left. split; [cbn; apply elem_of_cons; auto|].
      simpl in Hle. rewrite length_app in Hle. simpl in Hle. lia.
    + simpl in Hreg.
      destruct (decide (k = name)) as [-> | Hne].
      * rewrite lookup_insert_eq in Hreg. inversion Hreg; subst p.
        left. split; [cbn; apply elem_of_cons; auto | cbn [heap]; lia].
      * rewrite lookup_insert_ne in Hreg by exact Hne.
        right. split; [|exact Hreg]. cbn. rewrite elem_of_cons.
        intros [E | Hin]; [congruence | contradiction].
Qed.

(** X21.  Pointers do not survive a reload.  After [Save] and then [Load]
    (even without clearing) the registry holds the same accounts by
    value, but every name leads to a newly allocated account: no pointer
    that was allocated before [Load] is registered any more, so a
    deposit through an old pointer is not seen by [GetAccount]. *)
Theorem reload_detaches_pointers
    (enc : gmap string Account -> list Byte.byte)
    (dec : list Byte.byte -> option (gmap string Account))
    (w : World) :
  self_delimiting enc dec ->
  registry_ok w ->
  denied (disk w) = false ->
  exists w1 w2,
    Save enc w = Some (None, w1) /\
    Load dec w1 = Some (None, w2) /\
    registry_view w2 = registry_view w /\
    (forall name p, default ∅ (accounts w2) !! name = Some p ->
       (length (heap w) <= p)%nat /\ heap w !! p = None).
Proof.
  intros Hcodec Hok Hd.
  eexists. rewrite (Save_ok enc w Hok Hd).
  set (w1 := set_disk _ w).
  assert (Hok1 : registry_ok w1) by exact Hok.
  assert (Hdec : dec (overwrite (enc (registry_view w))
                                (default [] (content (disk w))))
                 = Some (registry_view w)) by apply Hcodec.
  destruct (Load_ok dec w1 _ (registry_view w) Hok1 eq_refl eq_refl Hdec)
    as (w2 & HL & _ & Hv).
  exists w2. split; [reflexivity|]. split; [exact HL|]. split.
  - rewrite Hv, foldl_insert_union by apply NoDup_fst_map_to_list.
    rewrite list_to_map_to_list. apply (idemp_L (∪)).
  - intros name p Hp.
    assert (Hrun : store_entries (map_to_list (registry_view w))
                     (set_accounts (Some (default ∅ (accounts w1))) w1)
                   = Some (tt, w2)).
    { unfold Load in HL. cbn [disk w1 set_disk content denied] in HL.
      rewrite Hdec in HL. unfold bind in HL.
      cbn [disk w1 set_disk content denied] in *.
      destruct (store_entries _ _) as [[[] w2']|] eqn:E; [|discriminate].
      inversion HL. reflexivity. }
    assert (Hle : (length (heap w) <= p)%nat).
    { destruct (store_entries_fresh _ _ _ name p Hrun Hp) as [[_ Hle] | [Hnin Hreg]];
        [exact Hle|].
      exfalso. apply Hnin. cbn [accounts set_accounts default from_option id w1 set_disk]
        in Hreg.
      apply list_elem_of_fmap. destruct (Hok name p Hreg) as [a Ha].
      exists (name, a). split; [reflexivity|].
      apply elem_of_map_to_list. unfold registry_view.
      rewrite lookup_omap, Hreg. exact Ha. }
    split; [exact Hle | apply lookup_ge_None; lia].
Qed.

Lemma reload_detaches_pointers_witness :
  exists w1 w2,
    Save unary_encode two_accounts = Some (None, w1) /\
    Load unary_decode w1 = Some (None, w2) /\
    (forall p, default ∅ (accounts w2) !! "A" = Some p -> (2 <= p)%nat).
Proof.
  assert (Hok : registry_ok two_accounts)
    by (apply (bool_decide_unpack _); vm_compute; exact I).
  destruct (reload_detaches_pointers unary_encode unary_decode two_accounts
              unary_self_delimiting Hok eq_refl)
    as (w1 & w2 & HS & HL & _ & Hp).
  exists w1, w2. split; [exact HS|]. split; [exact HL|].
  intros p H. exact (proj1 (Hp "A" p H)).
Defined.

(** ** Listing *)

Lemma string_app_assoc (a b c : string) : (a +:+ b) +:+ c = a +:+ b +:+ c.
Proof.
  induction a as [|x a IH]; [reflexivity|].
  change (String x ((a +:+ b) +:+ c) = String x (a +:+ b +:+ c)).
  rewrite IH. reflexivity.
Qed.

Lemma string_app_empty_r (a : string) : a +:+ "" = a.
Proof.
  induction a as [|x a IH]; [reflexivity|].
  change (String x (a +:+ "") = String x a). rewrite IH. reflexivity.
Qed.

(** The loop appends to its text and leaves the state alone; the line of
    each value it visits is part of what it appends. *)
Lemma list_values_eq (w : World) (vs : list nat) (acc : string) :
  Forall (fun v => is_Some (heap w !! v)) vs ->
  exists body,
    list_values vs acc w = Some (acc +:+ body, w) /\
    (vs = [] -> body = "") /\
    (forall v a, v ∈ vs -> heap w !! v = Some a ->
       exists pre post, body = pre +:+ line_of (Name a) (Bal a) +:+ post).
Proof.
  intros Hvs. revert acc. induction Hvs as [|v vs [a Ha] _ IH]; intros acc.
  - exists "". split; [cbn; rewrite string_app_empty_r; reflexivity|].
    split; [reflexivity|]. intros v a Hv. apply elem_of_nil in Hv. contradiction.
  - destruct (IH (acc +:+ line_of (Name a) (Bal a))) as (body & Hrun & _ & Hin).
    exists (line_of (Name a) (Bal a) +:+ body). split; [|split].
    + cbn [list_values]. unfold bind.
      rewrite (deref_eq v a w Ha), (get_Bal_eq v a w Ha), Hrun.
      rewrite string_app_assoc. reflexivity.
    + discriminate.
    + intros v' a' Hv' Ha'. apply elem_of_cons in Hv' as [-> | Hv'].
      * assert (a' = a) by congruence. subst a'. exists "", body. reflexivity.
      * destruct (Hin v' a' Hv' Ha') as (pre & post & ->).
        exists (line_of (Name a) (Bal a) +:+ pre), post.
        rewrite string_app_assoc. reflexivity.
Qed.

(** X22.  [ListAccounts] lists each account with its current balance.  In
    a registry without nil pointers, whatever order the map iteration
    takes, it returns the heading followed by text that contains, for
    every registered account, the line made of its name and its balance;
    it leaves the state unchanged; on an empty or nil registry it returns
    the heading alone. *)
Theorem ListAccounts_lists_every_account (w : World) (order : list (string * nat)) :
  registry_ok w ->
  iteration_order w order ->
  exists body,
    ListAccounts order w = Some (("Accounts:" +:+ newline) +:+ body, w) /\
    (default ∅ (accounts w) = ∅ -> body = "") /\
    (forall name p a,
       default ∅ (accounts w) !! name = Some p -> heap w !! p = Some a ->
       exists pre post, body = pre +:+ line_of (Name a) (Bal a) +:+ post).
Proof.
  intros Hok Hord. unfold iteration_order in Hord.
  assert (Hvs : Forall (fun v => is_Some (heap w !! v)) (snd <$> order)).
  { apply Forall_forall. intros v Hv.
    apply list_elem_of_fmap in Hv as ([k v'] & -> & Hkv).
    rewrite Hord in Hkv. apply elem_of_map_to_list in Hkv. exact (Hok k v' Hkv). }
  destruct (list_values_eq w (snd <$> order) ("Accounts:" +:+ newline) Hvs)
    as (body & Hrun & Hnil & Hin).
  exists body. split; [exact Hrun|]. split.
  - intros He. apply Hnil. rewrite He, map_to_list_empty in Hord.
    apply Permutation_nil_r in Hord. rewrite Hord. reflexivity.
  - intros name p a Hp Ha. apply (Hin p a); [|exact Ha].
    apply list_elem_of_fmap. exists (name, p). split; [reflexivity|].
    rewrite Hord. apply elem_of_map_to_list. exact Hp.
Qed.

Lemma ListAccounts_lists_every_account_witness :
  ListAccounts [("B", 1%nat); ("A", 0%nat)] two_accounts
  = Some ("Accounts:" +:+ newline +:+
          "Account: B, balance: 0" +:+ newline +:+
          "Account: A, balance: 100" +:+ newline, two_accounts) /\
  exists body,
    ListAccounts [("A", 0%nat); ("B", 1%nat)] two_accounts
    = Some (("Accounts:" +:+ newline) +:+ body, two_accounts) /\
    exists pre post, body = pre +:+ line_of "B" 0 +:+ post.
Proof.
  split; [vm_compute; reflexivity|].
  assert (Hok : registry_ok two_accounts)
    by (apply (bool_decide_unpack _); vm_compute; exact I).
  assert (Hord : iteration_order two_accounts [("A", 0%nat); ("B", 1%nat)]).
  { unfold iteration_order.
    apply (NoDup_Permutation _ _).
    - repeat constructor; rewrite ?elem_of_cons, ?elem_of_nil; intuition congruence.
    - apply NoDup_map_to_list.
    - intros [k p]. rewrite elem_of_map_to_list.
      cbn [two_accounts accounts default from_option id].
      rewrite !elem_of_cons, elem_of_nil.
      destruct (decide (k = "B")) as [-> | HB].
      { rewrite lookup_insert_eq. split; [intros [E | [E | []]] | intros E; right; left];
          congruence. }
      rewrite lookup_insert_ne by congruence.
      destruct (decide (k = "A")) as [-> | HA].
      { rewrite lookup_insert_eq. split; [intros [E | [E | []]] | intros E; left];
          congruence. }
      rewrite lookup_insert_ne by congruence. rewrite lookup_empty.
      split; [intros [E | [E | []]]; congruence | discriminate]. }
  destruct (ListAccounts_lists_every_account two_accounts _ Hok Hord)
    as (body & Hrun & _ & Hin).
  exists body. split; [exact Hrun|].
  exact (Hin "B" 1%nat (mkAccount "B" 0 []) eq_refl eq_refl).
Defined.

(** ** Saving after a run *)

Lemma run_ops_disk (os : list op) (w w' : World) :
  run_ops os w = Some (tt, w') -> disk w' = disk w.
Proof.
  revert w. induction os as [|o os IH]; intros w H.
  - inversion H. reflexivity.
  - cbn [run_ops] in H. unfold bind in H.
    destruct (run_op o w) as [[[] w1]|] eqn:E; [|discriminate].
    destruct (run_op_effect _ _ _ E) as (Hd & _). rewrite (IH w1 H). exact Hd.
Qed.

Lemma registry_named_ok (w : World) : registry_named w -> registry_ok w.
Proof. intros Hn k p Hk. destruct (Hn k p Hk) as (a & Ha & _). eauto. Qed.

(** X23.  The account operations never touch the file, and they never
    leave the registry in a state [Save] cannot encode: after any run from
    the start of the process the file is as it was, and [Save] succeeds
    whenever the file can be opened or created, writing the snapshot of
    the registry over the start of the file. *)
Theorem Save_after_run
    (enc : gmap string Account -> list Byte.byte)
    (os : list op) (d : FS) (w : World) :
  run_ops os (init_world d) = Some (tt, w) ->
  denied d = false ->
  disk w = d /\
  Save enc w
  = Some (None,
          set_disk (mkFS (Some (overwrite (enc (registry_view w))
                                          (default [] (content d)))) false) w).
Proof.
  intros H Hd. pose proof (run_ops_disk os _ _ H) as Hdisk. cbn in Hdisk.
  split; [exact Hdisk|].
  assert (Hok : registry_ok w).
  { apply registry_named_ok.
    exact (run_ops_keep_named os (init_world d) w (init_world_named d) H). }
  rewrite (Save_ok enc w Hok) by (rewrite Hdisk; exact Hd).
  rewrite Hdisk. reflexivity.
Qed.

Lemma Save_after_run_witness :
  exists w', Save unary_encode two_accounts = Some (None, w').
Proof.
  destruct (Save_after_run unary_encode
              [OpNewAccount "A"; OpNewAccount "B"; OpDeposit 0%nat 100]
              no_file two_accounts ltac:(vm_compute; reflexivity) eq_refl)
    as [_ H].
  eexists. exact H.
Defined.
